(** * HashMap: a separate-chaining hash table over two vectors

    Shallow embedding of the class template [HashMap<KeyType, ValueType, Hash>]
    of [src/hash_map_2.h] (the files [hash_map_2version.h] and [hashtbl.h]
    hold the same member functions under other names).

    - [value_store_] is a [std::vector] of key/value pairs: a [list (K * V)];
    - [hashed_pointers_] is a [std::vector<std::vector<size_t>>]: a
      [list (list Z)], every [size_t] being an integer taken modulo [2^64];
    - the one [int] of the class, [cur_position] in the rehash loop, is
      converted to 32 bits and back as the code does;
    - a member function returns an [outcome]: it returns a value, throws
      [std::out_of_range], or has no defined behaviour (vector access out of
      range, remainder by zero);
    - an [iterator] is its position together with the address of its
      container, and a [memory] tells which container lives at an address;
      the member functions of the container are stated on positions, the
      iterators they return being those of [this]. *)

From stdpp Require Import base tactics option numbers list strings.
From Stdlib Require Import ZArith Lia.

Local Open Scope Z_scope.

(** ** Results of member functions *)

Inductive outcome (A : Type) : Type :=
  | Returns (a : A)
  | Throws_out_of_range
  | Undefined.
Arguments Returns {A} a.
Arguments Throws_out_of_range {A}.
Arguments Undefined {A}.

Global Instance outcome_ret : MRet outcome := λ A a, Returns a.
Global Instance outcome_bind : MBind outcome := λ A B f c,
  match c with
  | Returns a => f a
  | Throws_out_of_range => Throws_out_of_range
  | Undefined => Undefined
  end.

(** The call does not end in an exception. *)
Definition no_throw {A} (c : outcome A) : Prop := c ≠ Throws_out_of_range.

(** ** Machine integers *)

(** [size_t] is 64 bits wide, [int] 32 bits wide (two's complement). *)
Definition to_size_t (z : Z) : Z := z mod 2 ^ 64.
Definition to_int (z : Z) : Z := (z + 2 ^ 31) mod 2 ^ 32 - 2 ^ 31.

(** [a % b] on [size_t]; the remainder by zero is undefined. *)
Definition umod (a b : Z) : outcome Z :=
  if decide (b = 0) then Undefined else Returns (a mod b).

(** ** Vectors *)

(** [v[i]] for a [size_t] index: reading outside the vector is undefined. *)
Definition vec_at {A} (v : list A) (i : Z) : outcome A :=
  if decide (0 ≤ i) then
    match v !! Z.to_nat i with
    | Some a => Returns a
    | None => Undefined
    end
  else Undefined.

(** [v[i] = f (v[i])], the element being changed in place. *)
Definition vec_update {A} (v : list A) (i : Z) (f : A → A) : outcome (list A) :=
  a ← vec_at v i; Returns (<[Z.to_nat i := f a]> v).

Definition vec_size {A} (v : list A) : Z := Z.of_nat (length v).

(** [v.back()] and [v.pop_back()]. *)
Definition back {A} (v : list A) : outcome A :=
  match last v with
  | Some a => Returns a
  | None => Undefined
  end.
Definition pop_back {A} (v : list A) : list A := take (length v - 1) v.
(** [v.back() = a]. *)
Definition set_back {A} (v : list A) (a : A) : list A :=
  <[(length v - 1)%nat := a]> v.
Definition push_back {A} (v : list A) (a : A) : list A := v ++ [a].

Section HashMap.
Context {K V : Type} `{EqDecision K} `{Inhabited V}.
(** [hasher_]: the hash function object.  Its result is converted to
    [size_t] wherever the class uses it. *)
Variable hasher_ : K → Z.

Record HashMap := mkHashMap {
  value_store_ : list (K * V);
  hashed_pointers_ : list (list Z)
}.

Definition INCREMENT_FACTOR_ : Z := 2.
Definition REALLOCATION_FACTOR_ : Z := 3.

(** [HashMap(const Hash&)]. *)
Definition HashMap_new : HashMap :=
  {| value_store_ := []; hashed_pointers_ := replicate 1 [] |}.

Definition size (m : HashMap) : Z := vec_size (value_store_ m).
Definition empty (m : HashMap) : bool := bool_decide (size m = 0).
Definition bucket_count (m : HashMap) : Z := vec_size (hashed_pointers_ m).

(** An iterator of a given container is its [index_]. *)
Definition begin_ (m : HashMap) : Z := 0.
Definition end_ (m : HashMap) : Z := size m.

(** The loop of [find] over one bucket. *)
Fixpoint find_loop (m : HashMap) (key : K) (bucket : list Z) : outcome Z :=
  match bucket with
  | [] => Returns (end_ m)
  | x :: bucket' =>
      kv ← vec_at (value_store_ m) x;
      if decide (kv.1 = key) then Returns x else find_loop m key bucket'
  end.

Definition find (m : HashMap) (key : K) : outcome Z :=
  current_hash ← umod (to_size_t (hasher_ key)) (bucket_count m);
  bucket ← vec_at (hashed_pointers_ m) current_hash;
  find_loop m key bucket.

(** The loop of [check_and_reallocate], from position [i] on; [rest] is
    the part of [value_store_] at positions [i], [i + 1], ... *)
Fixpoint rehash_loop (new_size : Z) (i : Z) (rest : list (K * V))
    (hp : list (list Z)) : outcome (list (list Z)) :=
  match rest with
  | [] => Returns hp
  | kv :: rest' =>
      r ← umod (to_size_t (hasher_ kv.1)) new_size;
      let cur_position := to_int r in
      hp' ← vec_update hp (to_size_t cur_position) (λ b, push_back b i);
      rehash_loop new_size (to_size_t (i + 1)) rest' hp'
  end.

Definition check_and_reallocate (m : HashMap) : outcome HashMap :=
  if decide (to_size_t (bucket_count m * INCREMENT_FACTOR_)
             ≤ to_size_t (REALLOCATION_FACTOR_ * size m)) then
    let new_size := to_size_t (bucket_count m * INCREMENT_FACTOR_) in
    hp ← rehash_loop new_size 0 (value_store_ m)
           (replicate (Z.to_nat new_size) []);
    Returns {| value_store_ := value_store_ m; hashed_pointers_ := hp |}
  else Returns m.

Definition insert (m : HashMap) (key_value : K * V) : outcome HashMap :=
  it ← find m key_value.1;
  if decide (it = end_ m) then
    let vs := push_back (value_store_ m) key_value in
    let current_hash := to_size_t (hasher_ key_value.1) in
    slot ← umod current_hash (bucket_count m);
    hp ← vec_update (hashed_pointers_ m) slot
           (λ b, push_back b (to_size_t (vec_size vs - 1)));
    check_and_reallocate {| value_store_ := vs; hashed_pointers_ := hp |}
  else Returns m.

(** First loop of [erase]: the first element equal to [index0] is swapped
    with the back of the bucket, which is then popped. *)
Fixpoint swap_pop (index0 : Z) (bucket : list Z) : list Z :=
  match bucket with
  | [] => []
  | x :: bucket' =>
      if decide (x = index0) then
        match last bucket' with
        | Some y => y :: pop_back bucket'
        | None => []
        end
      else x :: swap_pop index0 bucket'
  end.

(** Second loop of [erase]: the first element equal to [index1] becomes
    [index0]. *)
Fixpoint retarget (index1 index0 : Z) (bucket : list Z) : list Z :=
  match bucket with
  | [] => []
  | x :: bucket' =>
      if decide (x = index1) then index0 :: bucket'
      else x :: retarget index1 index0 bucket'
  end.

Definition erase (m : HashMap) (key : K) : outcome HashMap :=
  it ← find m key;
  if decide (it = end_ m) then Returns m
  else
    curiter ← find m key;
    hash0 ← umod (to_size_t (hasher_ key)) (bucket_count m);
    last_kv ← back (value_store_ m);
    hash1 ← umod (to_size_t (hasher_ last_kv.1)) (bucket_count m);
    let index0 := curiter in
    let index1 := to_size_t (size m - 1) in
    (* swap(value_store_[index0], value_store_.back()); pop_back() *)
    kv0 ← vec_at (value_store_ m) index0;
    let vs := pop_back (set_back
                          (<[Z.to_nat index0 := last_kv]> (value_store_ m))
                          kv0) in
    hp0 ← vec_update (hashed_pointers_ m) hash0 (swap_pop index0);
    hp1 ← vec_update hp0 hash1 (retarget index1 index0);
    Returns {| value_store_ := vs; hashed_pointers_ := hp1 |}.

(** [at]: the value found, or [std::out_of_range]. *)
Definition at_ (m : HashMap) (key : K) : outcome V :=
  it ← find m key;
  if decide (it = end_ m) then Throws_out_of_range
  else
    it' ← find m key;
    kv ← vec_at (value_store_ m) it';
    Returns kv.2.

(** [operator[]]: the reference returned is the position in
    [value_store_] of the pair whose [second] it designates, together
    with the container after the call. *)
Definition subscript (m : HashMap) (key : K) : outcome (Z * HashMap) :=
  it ← find m key;
  if decide (it = end_ m) then
    let init : V := inhabitant in
    m' ← insert m (key, init);
    it' ← find m' key;
    _ ← vec_at (value_store_ m') it';
    Returns (it', m')
  else
    it' ← find m key;
    _ ← vec_at (value_store_ m) it';
    Returns (it', m).

Definition clear (m : HashMap) : HashMap :=
  {| value_store_ := []; hashed_pointers_ := replicate 1 [] |}.

(** [HashMap(first, last, hasher)] and [HashMap(init_list, hasher)]: the
    elements are inserted one after the other. *)
Fixpoint insert_all (m : HashMap) (elems : list (K * V)) : outcome HashMap :=
  match elems with
  | [] => Returns m
  | elem :: elems' => m' ← insert m elem; insert_all m' elems'
  end.

Definition HashMap_of (elems : list (K * V)) : outcome HashMap :=
  insert_all HashMap_new elems.

(** ** The representation invariant *)

(** The bucket of [key] in a table of [n] buckets. *)
Definition bucket_for (n : Z) (key : K) : Z := to_size_t (hasher_ key) mod n.
Definition bucket_of (m : HashMap) (key : K) : Z :=
  bucket_for (bucket_count m) key.

(** [hp] indexes [vs] through [f]: a bucket holds no position twice, and
    bucket [b] holds exactly the positions of [vs] whose key [f] maps
    to [b]. *)
Definition indexed_by (f : K → Z) (vs : list (K * V))
    (hp : list (list Z)) : Prop :=
  ∀ (b : nat) (bucket : list Z), hp !! b = Some bucket →
    NoDup bucket ∧
    ∀ x : Z, x ∈ bucket ↔
      ∃ (p : nat) (kv : K * V),
        x = Z.of_nat p ∧ vs !! p = Some kv ∧ f kv.1 = Z.of_nat b.

(** [hp] has [n] buckets and files every position under the bucket of its
    key: the index that [find], [insert] and [erase] rely on. *)
Definition indexed (n : Z) (vs : list (K * V)) (hp : list (list Z)) : Prop :=
  vec_size hp = n ∧ indexed_by (bucket_for n) vs hp.

(** The bucket number as the rehash loop obtains it, through
    [int cur_position]. *)
Definition rehash_bucket (n : Z) (key : K) : Z :=
  to_size_t (to_int (bucket_for n key)).

Definition keys (m : HashMap) : list K := (value_store_ m).*1.

Definition index_ok (m : HashMap) : Prop :=
  1 ≤ bucket_count m ∧
  NoDup (keys m) ∧
  indexed (bucket_count m) (value_store_ m) (hashed_pointers_ m).

(** The load factor is below [INCREMENT_FACTOR_ / REALLOCATION_FACTOR_]. *)
Definition load_ok (m : HashMap) : Prop :=
  REALLOCATION_FACTOR_ * size m < bucket_count m * INCREMENT_FACTOR_.

(** The range of [int]: a bucket number below [int_range] goes through
    [int cur_position] unchanged. *)
Definition int_range : Z := 2 ^ 31.

Definition Inv (m : HashMap) : Prop :=
  index_ok m ∧ load_ok m ∧ bucket_count m ≤ int_range.

(** The table can double once more within the range of [int]. *)
Definition can_double (m : HashMap) : Prop :=
  bucket_count m * INCREMENT_FACTOR_ ≤ int_range.

(** Number of times [x] occurs in a bucket. *)
Definition occurrences (x : Z) (bucket : list Z) : nat :=
  length (filter (λ y, y = x) bucket).

(** Every live position is in exactly one bucket, once, and that bucket
    is the one of its key under the current bucket count. *)
Definition bucket_index_invariant (m : HashMap) : Prop :=
  ∀ (p : nat) (kv : K * V), value_store_ m !! p = Some kv →
    ∃ bucket : list Z,
      hashed_pointers_ m !! Z.to_nat (bucket_of m kv.1) = Some bucket ∧
      occurrences (Z.of_nat p) bucket = 1%nat ∧
      ∀ (b' : nat) (bucket' : list Z),
        hashed_pointers_ m !! b' = Some bucket' →
        b' ≠ Z.to_nat (bucket_of m kv.1) →
        occurrences (Z.of_nat p) bucket' = 0%nat.

End HashMap.

Arguments HashMap K V : clear implicits.

(** ** Iterators *)

(** The address of a container object. *)
Definition address : Type := nat.

(** [iterator] and [const_iterator] have the same members and the same
    member functions: a position and a pointer to the container, which is
    null ([None]) in an iterator built without arguments. *)
Record iterator := mk_iterator {
  index_ : Z;
  my_hashmap_ : option address
}.

Definition iterator_default : iterator :=
  {| index_ := 0; my_hashmap_ := None |}.

(** [operator++()]: the iterator after the call.  [operator++(int)]: the
    copy returned and the iterator after the call. *)
Definition pre_increment (it : iterator) : iterator :=
  {| index_ := to_size_t (index_ it + 1); my_hashmap_ := my_hashmap_ it |}.
Definition post_increment (it : iterator) : iterator * iterator :=
  (it, pre_increment it).

(** [operator--()] and [operator--(int)], which [hashtbl.h] alone has. *)
Definition pre_decrement (it : iterator) : iterator :=
  {| index_ := to_size_t (index_ it - 1); my_hashmap_ := my_hashmap_ it |}.
Definition post_decrement (it : iterator) : iterator * iterator :=
  (it, pre_decrement it).

(** [operator==] and [operator!=]. *)
Definition iterator_eq (a b : iterator) : bool :=
  bool_decide (index_ a = index_ b)
  && bool_decide (my_hashmap_ a = my_hashmap_ b).
Definition iterator_ne (a b : iterator) : bool := negb (iterator_eq a b).

Section Iterators.
Context {K V : Type} `{EqDecision K} `{Inhabited V}.
Variable hasher_ : K → Z.

(** The containers that live at the addresses in use. *)
Definition memory : Type := address → option (HashMap K V).

(** [operator*] and [operator->]: the pair at [index_] in the container
    pointed to. *)
Definition dereference (mem : memory) (it : iterator) : outcome (K * V) :=
  match my_hashmap_ it with
  | Some this =>
      match mem this with
      | Some m => vec_at (value_store_ m) (index_ it)
      | None => Undefined
      end
  | None => Undefined
  end.

(** [begin()], [end()] and [find(key)] of the container [m] that lives at
    the address [this]. *)
Definition begin_iterator (this : address) (m : HashMap K V) : iterator :=
  {| index_ := begin_ m; my_hashmap_ := Some this |}.
Definition end_iterator (this : address) (m : HashMap K V) : iterator :=
  {| index_ := end_ m; my_hashmap_ := Some this |}.
Definition find_iterator (this : address) (m : HashMap K V) (key : K) :
    outcome iterator :=
  x ← find hasher_ m key;
  Returns {| index_ := x; my_hashmap_ := Some this |}.

(** The loop of [HashMap(first, last, hasher)], which inserts the pair
    that [first] designates and increments [first] until it equals
    [last], for [first] and [last] iterators of this class; [fuel] bounds
    the number of turns, [None] telling that it did not suffice. *)
Fixpoint insert_range (fuel : nat) (mem : memory) (first last : iterator)
    (m : HashMap K V) : option (outcome (HashMap K V)) :=
  match fuel with
  | O => None
  | S fuel' =>
      if iterator_ne first last then
        match kv ← dereference mem first; insert hasher_ m kv with
        | Returns m' =>
            insert_range fuel' mem (post_increment first).2 last m'
        | Throws_out_of_range => Some Throws_out_of_range
        | Undefined => Some Undefined
        end
      else Some (Returns m)
  end.

Definition HashMap_range (fuel : nat) (mem : memory)
    (first last : iterator) : option (outcome (HashMap K V)) :=
  insert_range fuel mem first last HashMap_new.

(** A store through the reference that [operator[]] returns, or through
    [it->second] for an [iterator] at position [it]:
    [value_store_[it].second = v]. *)
Definition assign_second (m : HashMap K V) (it : Z) (v : V) :
    outcome (HashMap K V) :=
  vs ← vec_update (value_store_ m) it (λ kv, (kv.1, v));
  Returns {| value_store_ := vs; hashed_pointers_ := hashed_pointers_ m |}.

(** [m[key] = v]. *)
Definition subscript_assign (m : HashMap K V) (key : K) (v : V) :
    outcome (HashMap K V) :=
  r ← subscript hasher_ m key;
  assign_second r.2 r.1 v.

(** The pairs that a sequence of inserts stores: a pair whose key is
    already stored is dropped, any other is appended. *)
Definition first_wins (vs elems : list (K * V)) : list (K * V) :=
  foldl (λ vs kv, if decide (kv.1 ∈ vs.*1) then vs else vs ++ [kv]) vs elems.

(** What [at] gives for [key] once the pairs [elems] have been inserted
    in an empty table: the value of the first pair with this key. *)
Definition first_value (key : K) (elems : list (K * V)) : outcome V :=
  match list_find (λ kv, kv.1 = key) elems with
  | Some (_, kv) => Returns kv.2
  | None => Throws_out_of_range
  end.

(** The bucket count has been reached by doubling from 1, the last time
    when the load factor demanded it. *)
Definition grown (m : HashMap K V) : Prop :=
  ∃ j : Z, 0 ≤ j ∧ bucket_count m = 2 ^ j ∧
           (j = 0 ∨ 2 ^ j ≤ REALLOCATION_FACTOR_ * size m).

End Iterators.

(** ** Tables used in the scenarios *)

(** [std::hash] of an integer type: the value itself, converted to
    [size_t] where the table uses it. *)
Definition hash_int (key : Z) : Z := key.

Definition abc : list (Z * string) := [(1, "a"); (2, "b"); (3, "c")].

(** The table [HashMap<int, std::string>{{1, "a"}, {2, "b"}, {3, "c"}}]. *)
Definition abc_map : HashMap Z string :=
  {| value_store_ := abc;
     hashed_pointers_ := [[]; [0]; [1]; [2]; []; []; []; []] |}.

(** A memory that holds [abc_map] at address 0 and nothing else. *)
Definition abc_memory : memory :=
  λ this, if decide (this = 0%nat) then Some abc_map else None.

(** The number of inserts after which the table has [2^31] buckets and
    the next insert rehashes it to [2^32] buckets. *)
Definition narrow_count : Z := 1431655765.

(** The key inserted at position [p] by a program that inserts the keys
    [0], [1], ..., [2^31 - 1] and then [2^32], [2^32 + 1], ... *)
Definition wide_key (p : Z) : Z :=
  if decide (p < 2 ^ 31) then p else p + 2 ^ 31.

(** The first [k] of these keys, each with an empty string. *)
Definition wide_elems (k : Z) : list (Z * string) :=
  (λ p, (wide_key p, EmptyString)) <$> seqZ 0 k.

(** After this many inserts the table has [2^32] buckets and the next
    insert rehashes it to [2^33] buckets. *)
Definition wide_count : Z := 2863311530.

(** * Properties *)

(** ** The outcome monad, machine integers, vectors *)

Lemma bind_Returns {A B} (c : outcome A) (f : A → outcome B) (b : B) :
  c ≫= f = Returns b ↔ ∃ a, c = Returns a ∧ f a = Returns b.
Proof.
  destruct c as [a| |]; simpl.
  - split; [by exists a|]. by intros (a' & [= ->] & Hf).
  - split; [done|]. by intros (a & Ha & _).
  - split; [done|]. by intros (a & Ha & _).
Qed.

Lemma bind_Returns_l {A B} (a : A) (f : A → outcome B) :
  Returns a ≫= f = f a.
Proof. reflexivity. Qed.

Lemma to_size_t_id (z : Z) : 0 ≤ z < 2 ^ 64 → to_size_t z = z.
Proof. intros. unfold to_size_t. by apply Z.mod_small. Qed.

Lemma to_int_id (z : Z) : 0 ≤ z < 2 ^ 31 → to_int z = z.
Proof. intros. unfold to_int. rewrite Z.mod_small; lia. Qed.

Lemma umod_Returns (a b : Z) :
  b ≠ 0 → umod a b = Returns (a mod b).
Proof. intros. unfold umod. by rewrite decide_False. Qed.

Lemma vec_at_Returns {A} (v : list A) (i : Z) (a : A) :
  vec_at v i = Returns a ↔ 0 ≤ i ∧ v !! Z.to_nat i = Some a.
Proof.
  unfold vec_at. case_decide as Hi.
  - destruct (v !! Z.to_nat i) as [a'|].
    + split; [by intros [= ->]|]. by intros [_ [= ->]].
    + split; [done|]. by intros [_ Ha].
  - split; [done|]. by intros [Hi' _].
Qed.

Lemma vec_at_nat {A} (v : list A) (p : nat) (a : A) :
  v !! p = Some a → vec_at v (Z.of_nat p) = Returns a.
Proof. intros. apply vec_at_Returns. rewrite Nat2Z.id. split; [lia|done]. Qed.

Lemma vec_update_Returns {A} (v : list A) (i : Z) (a : A) (f : A → A) :
  0 ≤ i → v !! Z.to_nat i = Some a →
  vec_update v i f = Returns (<[Z.to_nat i := f a]> v).
Proof.
  intros Hi Hp. unfold vec_update.
  by rewrite (proj2 (vec_at_Returns v i a) (conj Hi Hp)).
Qed.

Lemma vec_update_size {A} (v v' : list A) (i : Z) (f : A → A) :
  vec_update v i f = Returns v' → vec_size v' = vec_size v.
Proof.
  unfold vec_update. intros (a & _ & Hv)%bind_Returns.
  inversion Hv. unfold vec_size. by rewrite length_insert.
Qed.

Lemma last_pop_back {A} (v : list A) (a : A) :
  last v = Some a → v = pop_back v ++ [a].
Proof.
  intros Hl. destruct (last_Some v a) as [[l' ->] _]; [done|].
  unfold pop_back. rewrite length_app. simpl.
  replace (length l' + 1 - 1)%nat with (length l') by lia.
  by rewrite take_app_length.
Qed.


(** ** The two bucket loops of [erase] *)

Lemma swap_pop_absent (index0 : Z) (bucket : list Z) :
  index0 ∉ bucket → swap_pop index0 bucket = bucket.
Proof.
  induction bucket as [|x bucket IH]; simpl; [done|].
  intros Hn. apply not_elem_of_cons in Hn as [Hx Hb].
  rewrite decide_False by done. by rewrite IH.
Qed.

Lemma swap_pop_present (index0 : Z) (bucket : list Z) :
  index0 ∈ bucket → bucket ≡ₚ index0 :: swap_pop index0 bucket.
Proof.
  induction bucket as [|x bucket IH]; simpl.
  - by intros ?%elem_of_nil.
  - intros Hin. case_decide as Hx.
    + subst x. destruct (last bucket) as [y|] eqn:Hl.
      * rewrite (last_pop_back bucket y Hl) at 1.
        constructor. by rewrite Permutation_app_comm.
      * apply last_None in Hl. by subst.
    + apply elem_of_cons in Hin as [?|Hin]; [congruence|].
      rewrite (IH Hin) at 1. apply perm_swap.
Qed.

Lemma swap_pop_spec (index0 : Z) (bucket : list Z) :
  NoDup bucket →
  NoDup (swap_pop index0 bucket) ∧
  ∀ x, x ∈ swap_pop index0 bucket ↔ x ∈ bucket ∧ x ≠ index0.
Proof.
  intros Hnd. destruct (decide (index0 ∈ bucket)) as [Hin|Hin].
  - pose proof (swap_pop_present _ _ Hin) as Hp.
    assert (∀ x, x ∈ bucket ↔ x = index0 ∨ x ∈ swap_pop index0 bucket) as Hb.
    { intros x. rewrite <-elem_of_cons. by rewrite <-Hp. }
    rewrite Hp in Hnd. apply NoDup_cons in Hnd as [Hni Hnd].
    split; [done|]. intros x. rewrite Hb.
    split; [intros Hx; split; [by right|congruence]|].
    by intros [[?|?] ?].
  - rewrite swap_pop_absent by done. split; [done|].
    intros x. split; [intros Hx; split; [done|congruence]|by intros [? _]].
Qed.

Lemma retarget_absent (index1 index0 : Z) (bucket : list Z) :
  index1 ∉ bucket → retarget index1 index0 bucket = bucket.
Proof.
  induction bucket as [|x bucket IH]; simpl; [done|].
  intros Hn. apply not_elem_of_cons in Hn as [Hx Hb].
  rewrite decide_False by done. by rewrite IH.
Qed.

Lemma retarget_present (index1 index0 : Z) (bucket : list Z) :
  index1 ∈ bucket →
  ∃ l1 l2, bucket = l1 ++ index1 :: l2 ∧
           retarget index1 index0 bucket = l1 ++ index0 :: l2.
Proof.
  induction bucket as [|x bucket IH]; simpl.
  - by intros ?%elem_of_nil.
  - intros Hin. case_decide as Hx.
    + subst x. by exists [], bucket.
    + apply elem_of_cons in Hin as [?|Hin]; [congruence|].
      destruct (IH Hin) as (l1 & l2 & -> & ->). by exists (x :: l1), l2.
Qed.

Lemma retarget_spec (index1 index0 : Z) (bucket : list Z) :
  NoDup bucket → index1 ∈ bucket → index0 ∉ bucket →
  NoDup (retarget index1 index0 bucket) ∧
  ∀ x, x ∈ retarget index1 index0 bucket ↔
       x = index0 ∨ (x ∈ bucket ∧ x ≠ index1).
Proof.
  intros Hnd Hin Hni.
  destruct (retarget_present index1 index0 bucket Hin) as (l1 & l2 & -> & ->).
  rewrite <-Permutation_middle in Hnd, Hni.
  apply NoDup_cons in Hnd as [Hn1 Hnd].
  apply not_elem_of_cons in Hni as [Hne Hni].
  split.
  - rewrite <-Permutation_middle. by apply NoDup_cons.
  - intros x. rewrite <-!Permutation_middle, !elem_of_cons.
    split; [|by intros [?|[[?|?] ?]]; [left|done|right]].
    intros [->|Hx]; [by left|]. right. split; [by right|congruence].
Qed.

Section Facts.
Context {K V : Type} `{EqDecision K} `{Inhabited V}.
Variable hasher_ : K → Z.

Local Abbreviation HashMap := (HashMap K V).
Local Abbreviation find := (find hasher_).
Local Abbreviation insert := (insert hasher_).
Local Abbreviation erase := (erase hasher_).
Local Abbreviation at_ := (at_ hasher_).
Local Abbreviation subscript := (subscript hasher_).
Local Abbreviation check_and_reallocate := (check_and_reallocate hasher_).
Local Abbreviation rehash_loop := (rehash_loop hasher_).
Local Abbreviation insert_all := (insert_all hasher_).
Local Abbreviation HashMap_of := (HashMap_of hasher_).
Local Abbreviation bucket_for := (bucket_for hasher_).
Local Abbreviation bucket_of := (bucket_of hasher_).
Local Abbreviation indexed := (indexed hasher_).
Local Abbreviation rehash_bucket := (rehash_bucket hasher_).
Local Abbreviation index_ok := (index_ok hasher_).
Local Abbreviation Inv := (Inv hasher_).
Local Abbreviation bucket_index_invariant := (bucket_index_invariant hasher_).

Implicit Types (m : HashMap) (key : K) (kv : K * V) (vs : list (K * V)).
Implicit Types (hp : list (list Z)) (bucket : list Z) (p q : nat).

(** ** Lookup *)

Lemma bucket_for_range (n : Z) key : 1 ≤ n → 0 ≤ bucket_for n key < n.
Proof. intros. unfold bucket_for. apply Z.mod_pos_bound. lia. Qed.

Lemma keys_lookup m p kv :
  value_store_ m !! p = Some kv → keys m !! p = Some kv.1.
Proof. intros Hp. unfold keys. by rewrite list_lookup_fmap, Hp. Qed.

Lemma same_key_same_position vs p q kv kv' :
  NoDup vs.*1 → vs !! p = Some kv → vs !! q = Some kv' →
  kv.1 = kv'.1 → p = q.
Proof.
  intros Hnd Hp Hq Hk. eapply NoDup_lookup; [exact Hnd| |].
  - by rewrite list_lookup_fmap, Hp.
  - by rewrite Hk, list_lookup_fmap, Hq.
Qed.

Lemma key_absent m key p kv :
  key ∉ keys m → value_store_ m !! p = Some kv → kv.1 ≠ key.
Proof.
  intros Hn Hp <-. apply Hn. apply list_elem_of_lookup. exists p.
  by apply keys_lookup.
Qed.

Lemma key_present m key :
  key ∈ keys m → ∃ p kv, value_store_ m !! p = Some kv ∧ kv.1 = key.
Proof.
  intros (p & Hp)%list_elem_of_lookup. unfold keys in Hp.
  rewrite list_lookup_fmap in Hp.
  destruct (value_store_ m !! p) as [kv|] eqn:E; [|done].
  exists p, kv. by inversion Hp.
Qed.

Lemma position_lt_size m p kv :
  value_store_ m !! p = Some kv → 0 ≤ Z.of_nat p < size m.
Proof. intros Hp%lookup_lt_Some. unfold size, vec_size. lia. Qed.

Lemma find_loop_spec m key bucket :
  (∀ x, x ∈ bucket → ∃ p kv, x = Z.of_nat p ∧ value_store_ m !! p = Some kv) →
  (∃ p kv, find_loop m key bucket = Returns (Z.of_nat p) ∧
           Z.of_nat p ∈ bucket ∧ value_store_ m !! p = Some kv ∧ kv.1 = key)
  ∨ (find_loop m key bucket = Returns (size m) ∧
     ∀ p kv, Z.of_nat p ∈ bucket → value_store_ m !! p = Some kv → kv.1 ≠ key).
Proof.
  induction bucket as [|x bucket IH]; intros Hb; simpl.
  - right. split; [done|]. by intros p kv ?%elem_of_nil.
  - destruct (Hb x) as (p & kv & -> & Hp); [by left|].
    rewrite (vec_at_nat _ _ _ Hp). simpl. case_decide as Hk.
    + left. exists p, kv. split_and!; [done|by left|done|done].
    + destruct IH as [(q & kv' & Hf & Hq & Hl & Hk')|[Hf Hno]].
      { intros y Hy. apply Hb. by right. }
      * left. exists q, kv'. split_and!; [done|by right|done|done].
      * right. split; [done|]. intros q kv' Hq Hl.
        apply elem_of_cons in Hq as [Hq|Hq]; [|by eapply Hno].
        apply Nat2Z.inj in Hq. subst q. congruence.
Qed.

Lemma find_unfold m key bucket :
  1 ≤ bucket_count m →
  hashed_pointers_ m !! Z.to_nat (bucket_of m key) = Some bucket →
  find m key = find_loop m key bucket.
Proof.
  intros Hn Hb. unfold find. rewrite umod_Returns by lia. simpl.
  pose proof (bucket_for_range (bucket_count m) key Hn).
  fold (bucket_for (bucket_count m) key). fold (bucket_of m key).
  replace (vec_at (hashed_pointers_ m) (bucket_of m key)) with (Returns bucket);
    [done|].
  symmetry. apply vec_at_Returns. unfold bucket_of. split; [lia|done].
Qed.

Lemma bucket_exists m key :
  1 ≤ bucket_count m →
  ∃ bucket, hashed_pointers_ m !! Z.to_nat (bucket_of m key) = Some bucket.
Proof.
  intros Hn. apply lookup_lt_is_Some.
  pose proof (bucket_for_range (bucket_count m) key Hn).
  unfold bucket_of, bucket_count, vec_size in *. lia.
Qed.

Lemma find_present m key p kv :
  index_ok m → value_store_ m !! p = Some kv → kv.1 = key →
  find m key = Returns (Z.of_nat p).
Proof.
  intros (Hn & Hnd & Hsz & Hix) Hp Hk.
  destruct (bucket_exists m key Hn) as [bucket Hb].
  rewrite (find_unfold m key bucket Hn Hb).
  destruct (Hix _ _ Hb) as [_ Hmem].
  assert (0 ≤ bucket_of m key) as Hpos.
  { apply bucket_for_range. done. }
  destruct (find_loop_spec m key bucket) as [(q & kv' & -> & _ & Hq & Hk')|[_ Hno]].
  - intros x (q & kv' & -> & Hq & _)%Hmem. eauto.
  - f_equal. f_equal. eapply same_key_same_position; eauto. congruence.
  - exfalso. eapply (Hno p kv); [|done|done].
    apply Hmem. exists p, kv. split_and!; [done|done|].
    subst key. unfold bucket_of in *. lia.
Qed.

Lemma find_absent m key :
  index_ok m → key ∉ keys m → find m key = Returns (size m).
Proof.
  intros (Hn & Hnd & Hsz & Hix) Hk.
  destruct (bucket_exists m key Hn) as [bucket Hb].
  rewrite (find_unfold m key bucket Hn Hb).
  destruct (Hix _ _ Hb) as [_ Hmem].
  destruct (find_loop_spec m key bucket) as [(q & kv' & _ & _ & Hq & Hk')|[-> _]].
  - intros x (q & kv' & -> & Hq & _)%Hmem. eauto.
  - exfalso. by eapply key_absent.
  - done.
Qed.

(** [find] never fails on a well-formed table, and its result tells
    whether the key is stored. *)
Lemma find_cases m key :
  index_ok m →
  ((key ∉ keys m) ∧ find m key = Returns (size m))
  ∨ (∃ p kv, value_store_ m !! p = Some kv ∧ kv.1 = key ∧
             find m key = Returns (Z.of_nat p) ∧ Z.of_nat p ≠ size m).
Proof.
  intros Hok. destruct (decide (key ∈ keys m)) as [Hin|Hni].
  - right. destruct (key_present m key Hin) as (p & kv & Hp & Hk).
    exists p, kv. split_and!; [done|done|by eapply find_present|].
    pose proof (position_lt_size m p kv Hp). lia.
  - left. split; [done|]. by apply find_absent.
Qed.

(** ** Indexing a store *)

Lemma indexed_position n vs hp (b : nat) bucket x :
  indexed n vs hp → hp !! b = Some bucket → x ∈ bucket →
  0 ≤ x < vec_size vs.
Proof.
  intros [_ Hix] Hb Hx. destruct (Hix _ _ Hb) as [_ Hmem].
  apply Hmem in Hx as (p & kv & -> & Hp%lookup_lt_Some & _).
  unfold vec_size. lia.
Qed.

(** One more pair at the end of the store, its position appended to the
    bucket of its key: the step shared by [insert] and the rehash loop. *)
Lemma indexed_by_push (f : K → Z) vs hp kv bucket :
  0 ≤ f kv.1 → indexed_by f vs hp →
  hp !! Z.to_nat (f kv.1) = Some bucket →
  indexed_by f (vs ++ [kv])
    (<[Z.to_nat (f kv.1) := push_back bucket (vec_size vs)]> hp).
Proof.
  intros Hr Hix Hb b bucket' Hb'.
  destruct (decide (b = Z.to_nat (f kv.1))) as [->|Hne].
  - rewrite list_lookup_insert_eq in Hb' by (by eapply lookup_lt_Some).
    inversion Hb'; subst bucket'; clear Hb'.
    destruct (Hix _ _ Hb) as [Hnd Hmem]. unfold push_back. split.
    + apply NoDup_app. split_and!; [done| |apply NoDup_singleton].
      intros x Hx ->%list_elem_of_singleton.
      apply Hmem in Hx as (p & kv' & Hp & Hl%lookup_lt_Some & _).
      unfold vec_size in Hp. lia.
    + intros x. rewrite elem_of_app, list_elem_of_singleton, Hmem. split.
      * intros [(p & kv' & -> & Hl & Hk)| ->].
        -- exists p, kv'. split_and!; [done| |done].
           by apply lookup_app_l_Some.
        -- exists (length vs), kv. split_and!; [done| |lia].
           by rewrite lookup_app_r, Nat.sub_diag by lia.
      * intros (p & kv' & -> & Hl & Hk).
        apply lookup_app_Some in Hl as [Hl|[Hge Hl]].
        -- left. by exists p, kv'.
        -- right. apply list_lookup_singleton_Some in Hl as [Hl _].
           unfold vec_size. lia.
  - rewrite list_lookup_insert_ne in Hb' by done.
    destruct (Hix _ _ Hb') as [Hnd Hmem]. split; [done|].
    intros x. rewrite Hmem. split.
    + intros (p & kv' & -> & Hl & Hk). exists p, kv'.
      split_and!; [done| |done]. by apply lookup_app_l_Some.
    + intros (p & kv' & -> & Hl & Hk).
      apply lookup_app_Some in Hl as [Hl|[Hge Hl]]; [by exists p, kv'|].
      apply list_lookup_singleton_Some in Hl as [_ <-]. lia.
Qed.

Lemma indexed_push n vs hp kv bucket :
  1 ≤ n → indexed n vs hp →
  hp !! Z.to_nat (bucket_for n kv.1) = Some bucket →
  indexed n (vs ++ [kv])
    (<[Z.to_nat (bucket_for n kv.1) := push_back bucket (vec_size vs)]> hp).
Proof.
  intros Hn [Hsz Hix] Hb. pose proof (bucket_for_range n kv.1 Hn) as Hr.
  split.
  - unfold vec_size in *. by rewrite length_insert.
  - apply indexed_by_push; [lia|done|done].
Qed.

Lemma bucket_for_lookup n vs hp key :
  1 ≤ n → indexed n vs hp →
  ∃ bucket, hp !! Z.to_nat (bucket_for n key) = Some bucket.
Proof.
  intros Hn [Hsz _]. apply lookup_lt_is_Some.
  pose proof (bucket_for_range n key Hn). unfold vec_size in Hsz. lia.
Qed.

(** ** Rehashing *)

Lemma rehash_bucket_nonneg (n : Z) key : 0 ≤ rehash_bucket n key.
Proof. unfold rehash_bucket, to_size_t. apply Z.mod_pos_bound. lia. Qed.

(** Up to [int_range] buckets the conversion to [int] changes nothing. *)
Lemma rehash_bucket_exact (n : Z) key :
  1 ≤ n ≤ int_range → rehash_bucket n key = bucket_for n key.
Proof.
  unfold int_range. intros Hn.
  pose proof (bucket_for_range n key ltac:(lia)).
  unfold rehash_bucket. rewrite to_int_id by lia. apply to_size_t_id. lia.
Qed.

(** The rehash loop files every position under [rehash_bucket], as long
    as that bucket exists. *)
Lemma rehash_loop_gen (n : Z) (rest pre : list (K * V)) hp :
  n ≠ 0 → vec_size (pre ++ rest) < 2 ^ 64 →
  Forall (λ kv, rehash_bucket n kv.1 < vec_size hp) rest →
  indexed_by (rehash_bucket n) pre hp →
  ∃ hp', rehash_loop n (vec_size pre) rest hp = Returns hp' ∧
         vec_size hp' = vec_size hp ∧
         indexed_by (rehash_bucket n) (pre ++ rest) hp'.
Proof.
  intros Hn. revert pre hp.
  induction rest as [|kv rest IH]; intros pre hp Hlen Hrg Hin; simpl.
  - exists hp. by rewrite app_nil_r.
  - rewrite umod_Returns by done. simpl.
    apply Forall_cons in Hrg as [Hkv Hrg].
    fold (bucket_for n kv.1). fold (rehash_bucket n kv.1).
    pose proof (rehash_bucket_nonneg n kv.1) as Hr.
    destruct (lookup_lt_is_Some_2 hp (Z.to_nat (rehash_bucket n kv.1)))
      as [bucket Hb]; [unfold vec_size in Hkv; lia|].
    rewrite (vec_update_Returns _ _ bucket) by done. simpl.
    unfold vec_size in Hlen. rewrite length_app in Hlen. simpl in Hlen.
    replace (to_size_t (vec_size pre + 1)) with (vec_size (pre ++ [kv])).
    2:{ unfold vec_size. rewrite length_app. simpl.
        rewrite to_size_t_id; lia. }
    rewrite (cons_middle kv pre rest), app_assoc.
    destruct (IH (pre ++ [kv])
                (<[Z.to_nat (rehash_bucket n kv.1) :=
                     push_back bucket (vec_size pre)]> hp))
      as (hp' & Hl & Hsz & Hix).
    + unfold vec_size. rewrite !length_app. simpl. lia.
    + unfold vec_size. by rewrite length_insert.
    + by apply indexed_by_push.
    + exists hp'. split_and!; [done| |done].
      rewrite Hsz. unfold vec_size. by rewrite length_insert.
Qed.

Lemma indexed_by_ext (f g : K → Z) vs hp :
  (∀ key, f key = g key) → indexed_by f vs hp → indexed_by g vs hp.
Proof.
  intros Hfg Hix b bucket Hb. destruct (Hix _ _ Hb) as [Hnd Hmem].
  split; [done|]. intros x. rewrite Hmem.
  split; intros (p & kv & ? & ? & ?); exists p, kv; by rewrite ?Hfg in *.
Qed.

Lemma indexed_by_empty (f : K → Z) (n : nat) :
  indexed_by f ([] : list (K * V)) (replicate n []).
Proof.
  intros b bucket [-> _]%lookup_replicate. split; [constructor|].
  intros x. split; [by intros ?%elem_of_nil|].
  by intros (p & kv & _ & ? & _).
Qed.

Lemma rehash_loop_spec (n : Z) (vs : list (K * V)) :
  1 ≤ n ≤ int_range → vec_size vs < 2 ^ 64 →
  ∃ hp', rehash_loop n 0 vs (replicate (Z.to_nat n) []) = Returns hp' ∧
         indexed n vs hp'.
Proof.
  intros Hn Hlen.
  assert (vec_size (replicate (Z.to_nat n) (@nil Z)) = n) as Hsz.
  { unfold vec_size. rewrite length_replicate. lia. }
  destruct (rehash_loop_gen n vs [] (replicate (Z.to_nat n) []))
    as (hp' & Hl & Hsz' & Hix); [lia|done| |apply indexed_by_empty|].
  - apply Forall_forall. intros kv _. rewrite Hsz.
    rewrite rehash_bucket_exact by done. apply bucket_for_range. lia.
  - exists hp'. split; [done|]. split; [congruence|].
    eapply indexed_by_ext; [|done]. intros key.
    by apply rehash_bucket_exact.
Qed.

Lemma check_and_reallocate_spec m :
  index_ok m → can_double m →
  REALLOCATION_FACTOR_ * (size m - 1) < bucket_count m * INCREMENT_FACTOR_ →
  ∃ m', check_and_reallocate m = Returns m' ∧
        value_store_ m' = value_store_ m ∧
        index_ok m' ∧ load_ok m' ∧ bucket_count m' ≤ int_range ∧
        ((m' = m ∧ load_ok m) ∨
         (bucket_count m' = bucket_count m * INCREMENT_FACTOR_ ∧ ¬ load_ok m)).
Proof.
  unfold can_double, load_ok, int_range, INCREMENT_FACTOR_,
    REALLOCATION_FACTOR_.
  intros (Hn & Hnd & Hix) Hd Hl. unfold check_and_reallocate.
  assert (0 ≤ size m) by (unfold size, vec_size; lia).
  unfold INCREMENT_FACTOR_, REALLOCATION_FACTOR_.
  rewrite (to_size_t_id (bucket_count m * 2)) by lia.
  rewrite (to_size_t_id (3 * size m)) by lia.
  case_decide as Hc.
  - destruct (rehash_loop_spec (bucket_count m * 2) (value_store_ m))
      as (hp' & Hr & Hix').
    { unfold int_range. lia. }
    { fold (size m). lia. }
    rewrite Hr. simpl. eexists. split; [done|].
    assert (vec_size hp' = bucket_count m * 2) as Hsz by apply Hix'.
    unfold index_ok, bucket_count, size, keys in *. simpl.
    rewrite Hsz. split_and!; [done|lia|done|done|lia|lia|].
    right. split; [done|lia].
  - exists m. split_and!; [done|done|done|lia|lia|].
    left. split; [done|lia].
Qed.

(** ** Insertion *)

Lemma Inv_size_bound m : Inv m → 0 ≤ size m < int_range.
Proof.
  unfold Inv, load_ok, int_range, INCREMENT_FACTOR_, REALLOCATION_FACTOR_.
  intros (_ & Hl & Hr).
  assert (0 ≤ size m) by (unfold size, vec_size; lia). lia.
Qed.

Lemma insert_present m kv :
  index_ok m → kv.1 ∈ keys m → insert m kv = Returns m.
Proof.
  intros Hok Hin. unfold insert.
  destruct (find_cases m kv.1 Hok) as [[Hni _]|(p & kv' & _ & _ & -> & Hne)];
    [done|].
  simpl. by rewrite decide_False.
Qed.

Lemma insert_absent m kv :
  Inv m → can_double m → kv.1 ∉ keys m →
  ∃ m', insert m kv = Returns m' ∧
        value_store_ m' = value_store_ m ++ [kv] ∧ Inv m' ∧
        ((REALLOCATION_FACTOR_ * (size m + 1)
            < bucket_count m * INCREMENT_FACTOR_ ∧
          hashed_pointers_ m' =
            <[Z.to_nat (bucket_of m kv.1) :=
                push_back (hashed_pointers_ m !!! Z.to_nat (bucket_of m kv.1))
                  (size m)]> (hashed_pointers_ m)) ∨
         (bucket_count m * INCREMENT_FACTOR_
            ≤ REALLOCATION_FACTOR_ * (size m + 1) ∧
          bucket_count m' = bucket_count m * INCREMENT_FACTOR_)).
Proof.
  intros HInv Hd Hni. pose proof (Inv_size_bound m HInv) as Hs.
  destruct HInv as (Hok & Hl & Hr). pose proof Hok as (Hn & Hnd & Hix).
  unfold insert. rewrite (find_absent m kv.1 Hok Hni). simpl.
  rewrite decide_True by done.
  rewrite umod_Returns by lia. simpl.
  fold (bucket_for (bucket_count m) kv.1).
  destruct (bucket_for_lookup _ _ _ kv.1 Hn Hix) as [bucket Hb].
  pose proof (bucket_for_range (bucket_count m) kv.1 Hn) as Hbr.
  rewrite (vec_update_Returns _ _ bucket) by (done || lia). simpl.
  replace (to_size_t (vec_size (push_back (value_store_ m) kv) - 1))
    with (vec_size (value_store_ m)).
  2:{ unfold push_back, vec_size. rewrite length_app. simpl.
      unfold size, vec_size, int_range in Hs. rewrite to_size_t_id; lia. }
  set (m1 := {| value_store_ := push_back (value_store_ m) kv;
                hashed_pointers_ := _ |}).
  assert (bucket_count m1 = bucket_count m) as Hn1.
  { unfold bucket_count, vec_size. simpl. by rewrite length_insert. }
  assert (size m1 = size m + 1) as Hs1.
  { unfold size, vec_size, m1. simpl. unfold push_back.
    rewrite length_app. simpl. lia. }
  destruct (check_and_reallocate_spec m1) as (m' & Hc & Hvs & Hok' & Hl' & Hr' & Hcase).
  - split_and!.
    + lia.
    + unfold keys, m1. simpl. unfold push_back. rewrite fmap_app. simpl.
      apply NoDup_app. split_and!; [done| |apply NoDup_singleton].
      by intros x Hx ->%list_elem_of_singleton.
    + rewrite Hn1. unfold m1. simpl. by apply indexed_push.
  - unfold can_double in *. by rewrite Hn1.
  - unfold load_ok in Hl. rewrite Hn1, Hs1.
    unfold INCREMENT_FACTOR_, REALLOCATION_FACTOR_ in *. lia.
  - exists m'. split_and!; [done|by rewrite Hvs| |].
    + by split_and!.
    + unfold load_ok in Hcase. rewrite Hn1, Hs1 in Hcase.
      destruct Hcase as [[-> Hlo]|[-> Hlo]]; [left|right].
      * split; [done|]. unfold m1. simpl. unfold bucket_of.
        by rewrite (list_lookup_total_correct _ _ _ Hb).
      * split; [lia|done].
Qed.

(** ** Erasure *)

Lemma erase_store_lookup vs p0 kv0 last_kv p :
  pop_back (set_back (<[p0 := last_kv]> vs) kv0) !! p =
    if decide (p < length vs - 1)%nat then
      if decide (p = p0) then Some last_kv else vs !! p
    else None.
Proof.
  unfold pop_back, set_back. rewrite !length_insert, lookup_take.
  case_decide as Hp; [|done].
  rewrite list_lookup_insert_ne by lia. rewrite list_lookup_insert.
  repeat case_decide; try done; try lia; naive_solver lia.
Qed.

Lemma erase_store_length vs p0 kv0 last_kv :
  length (pop_back (set_back (<[p0 := last_kv]> vs) kv0))
  = (length vs - 1)%nat.
Proof.
  unfold pop_back, set_back. rewrite length_take, !length_insert. lia.
Qed.

Lemma erase_keys_NoDup vs p0 kv0 last_kv :
  NoDup vs.*1 → last vs = Some last_kv →
  NoDup (pop_back (set_back (<[p0 := last_kv]> vs) kv0)).*1.
Proof.
  intros Hnd Hlast. rewrite last_lookup in Hlast.
  assert (∀ i kv,
    pop_back (set_back (<[p0 := last_kv]> vs) kv0) !! i = Some kv →
    (i < length vs - 1)%nat ∧
    vs !! (if decide (i = p0) then pred (length vs) else i) = Some kv) as Hsrc.
  { intros i kv. rewrite erase_store_lookup.
    repeat case_decide; try done; intros; simplify_eq; by split. }
  apply NoDup_alt. intros i j k.
  rewrite !list_lookup_fmap.
  destruct (_ !! i) as [kvi|] eqn:Hi; [|done].
  destruct (_ !! j) as [kvj|] eqn:Hj; [|done].
  simpl. intros [= Hki] [= Hkj].
  apply Hsrc in Hi as [Hil Hi]. apply Hsrc in Hj as [Hjl Hj].
  assert (kvi.1 = kvj.1) as Hk by congruence.
  pose proof (same_key_same_position _ _ _ _ _ Hnd Hi Hj Hk) as Heq.
  repeat case_decide; lia.
Qed.

(** After the first bucket loop of [erase], [p0] is in no bucket and the
    other positions are where they were. *)
Lemma swap_pop_indexed n vs hp p0 kv0 (b0 : nat) bucket0 :
  NoDup vs.*1 → indexed n vs hp →
  vs !! p0 = Some kv0 → bucket_for n kv0.1 = Z.of_nat b0 →
  hp !! b0 = Some bucket0 →
  ∀ (b : nat) bucket,
    <[b0 := swap_pop (Z.of_nat p0) bucket0]> hp !! b = Some bucket →
    NoDup bucket ∧
    ∀ x, x ∈ bucket ↔
      x ≠ Z.of_nat p0 ∧
      ∃ p kv, x = Z.of_nat p ∧ vs !! p = Some kv ∧
              bucket_for n kv.1 = Z.of_nat b.
Proof.
  intros Hnd [Hsz Hix] Hp0 Hk0 Hb0 b bucket Hb.
  destruct (decide (b = b0)) as [->|Hne].
  - rewrite list_lookup_insert_eq in Hb by (by eapply lookup_lt_Some).
    inversion Hb; subst bucket; clear Hb.
    destruct (Hix _ _ Hb0) as [Hnd0 Hmem].
    destruct (swap_pop_spec (Z.of_nat p0) bucket0 Hnd0) as [Hnd' Hmem'].
    split; [done|]. intros x. rewrite Hmem', Hmem. tauto.
  - rewrite list_lookup_insert_ne in Hb by done.
    destruct (Hix _ _ Hb) as [Hnd0 Hmem]. split; [done|].
    intros x. rewrite Hmem. split; [|by intros [_ ?]].
    intros (p & kv & -> & Hp & Hk). split; [|by exists p, kv].
    intros ->%Nat2Z.inj. simplify_eq. lia.
Qed.

Lemma erase_indexed n vs hp p0 kv0 last_kv (b0 b1 : nat) bucket0 bucket1 :
  NoDup vs.*1 → indexed n vs hp →
  vs !! p0 = Some kv0 → last vs = Some last_kv →
  bucket_for n kv0.1 = Z.of_nat b0 →
  bucket_for n last_kv.1 = Z.of_nat b1 →
  hp !! b0 = Some bucket0 →
  <[b0 := swap_pop (Z.of_nat p0) bucket0]> hp !! b1 = Some bucket1 →
  indexed n (pop_back (set_back (<[p0 := last_kv]> vs) kv0))
    (<[b1 := retarget (Z.of_nat (length vs - 1)) (Z.of_nat p0) bucket1]>
       (<[b0 := swap_pop (Z.of_nat p0) bucket0]> hp)).
Proof.
  intros Hnd Hin Hp0 Hlast Hk0 Hk1 Hb0 Hb1.
  pose proof (swap_pop_indexed n vs hp p0 kv0 b0 bucket0
                Hnd Hin Hp0 Hk0 Hb0) as Hst.
  destruct Hin as [Hsz Hix].
  pose proof (lookup_lt_Some _ _ _ Hp0) as Hlt.
  rewrite last_lookup in Hlast.
  replace (pred (length vs)) with (length vs - 1)%nat in Hlast by lia.
  set (pl := (length vs - 1)%nat) in *.
  split. { unfold vec_size in *. by rewrite !length_insert. }
  intros b bucket Hb.
  assert (∀ p kv,
    pop_back (set_back (<[p0 := last_kv]> vs) kv0) !! p = Some kv ↔
    (p < pl)%nat ∧ (if decide (p = p0) then kv = last_kv
                    else vs !! p = Some kv)) as Hvs'.
  { intros p kv. rewrite erase_store_lookup. fold pl.
    destruct (decide (p < pl)%nat) as [Hlt'|Hge]; [|by split; [|intros [? _]]].
    destruct (decide (p = p0)) as [->|Hne].
    - split; [by intros [= ->]|by intros [_ ->]].
    - split; [done|by intros [_ ?]]. }
  destruct (decide (p0 = pl)) as [Hpl|Hpl].
  - (* the pair erased is the last one *)
    assert (<[b0 := swap_pop (Z.of_nat p0) bucket0]> hp !! b = Some bucket)
      as Hb'.
    { destruct (decide (b = b1)) as [->|Hne].
      - rewrite list_lookup_insert_eq in Hb by (by eapply lookup_lt_Some).
        rewrite retarget_absent in Hb; [by rewrite Hb1|].
        intros [Hx _]%(Hst b1 bucket1 Hb1). lia.
      - by rewrite list_lookup_insert_ne in Hb. }
    destruct (Hst _ _ Hb') as [Hnd' Hmem]. split; [done|].
    intros x. rewrite Hmem. split.
    + intros (Hx & p & kv & -> & Hp & Hk). exists p, kv.
      split_and!; [done| |done]. apply Hvs'.
      pose proof (lookup_lt_Some _ _ _ Hp).
      assert (p ≠ p0) by (intros ->; done).
      rewrite decide_False by done. split; [lia|done].
    + intros (p & kv & -> & [Hp Hl]%Hvs' & Hk).
      rewrite decide_False in Hl by lia.
      split; [lia|]. by exists p, kv.
  - (* the last pair moves to position [p0] *)
    destruct (decide (b = b1)) as [->|Hne].
    + rewrite list_lookup_insert_eq in Hb by (by eapply lookup_lt_Some).
      inversion Hb; subst bucket; clear Hb.
      destruct (Hst _ _ Hb1) as [Hnd1 Hmem1].
      destruct (retarget_spec (Z.of_nat pl) (Z.of_nat p0) bucket1)
        as [Hnd' Hmem']; [done| | |].
      { apply Hmem1. split; [lia|]. by exists pl, last_kv. }
      { intros [Hx _]%Hmem1. done. }
      split; [done|]. intros x. rewrite Hmem'. split.
      * intros [->|[(Hx & p & kv & -> & Hp & Hk)%Hmem1 Hxl]].
        -- exists p0, last_kv. split_and!; [done| |done].
           apply Hvs'. rewrite decide_True by done. split; [lia|done].
        -- exists p, kv. split_and!; [done| |done]. apply Hvs'.
           pose proof (lookup_lt_Some _ _ _ Hp).
           rewrite decide_False by (intros ->; done). split; [lia|done].
      * intros (p & kv & -> & [Hp Hl]%Hvs' & Hk).
        destruct (decide (p = p0)) as [->|Hpp]; [by left|].
        right. split; [|lia]. apply Hmem1. split; [lia|]. by exists p, kv.
    + rewrite list_lookup_insert_ne in Hb by done.
      destruct (Hst _ _ Hb) as [Hnd' Hmem]. split; [done|].
      intros x. rewrite Hmem. split.
      * intros (Hx & p & kv & -> & Hp & Hk). exists p, kv.
        split_and!; [done| |done]. apply Hvs'.
        pose proof (lookup_lt_Some _ _ _ Hp).
        rewrite decide_False by (intros ->; done). split; [|done].
        assert (p ≠ pl); [|lia]. intros ->. simplify_eq. lia.
      * intros (p & kv & -> & [Hp Hl]%Hvs' & Hk).
        destruct (decide (p = p0)) as [->|Hpp].
        -- subst kv. lia.
        -- split; [lia|]. by exists p, kv.
Qed.

Lemma erase_absent m key :
  index_ok m → key ∉ keys m → erase m key = Returns m.
Proof.
  intros Hok Hni. unfold erase. rewrite (find_absent m key Hok Hni). simpl.
  by rewrite decide_True.
Qed.

Lemma erase_present m key p0 kv0 :
  index_ok m → size m < 2 ^ 64 →
  value_store_ m !! p0 = Some kv0 → kv0.1 = key →
  ∃ m' last_kv,
    last (value_store_ m) = Some last_kv ∧
    erase m key = Returns m' ∧
    value_store_ m' =
      pop_back (set_back (<[p0 := last_kv]> (value_store_ m)) kv0) ∧
    bucket_count m' = bucket_count m ∧
    index_ok m'.
Proof.
  intros Hok Hs Hp0 Hk. pose proof Hok as (Hn & Hnd & Hix).
  pose proof (lookup_lt_Some _ _ _ Hp0) as Hlt.
  pose proof (position_lt_size m p0 kv0 Hp0) as Hps.
  destruct (last (value_store_ m)) as [last_kv|] eqn:Hlast.
  2:{ apply last_None in Hlast. rewrite Hlast in Hlt. simpl in Hlt. lia. }
  unfold erase. rewrite (find_present m key p0 kv0 Hok Hp0 Hk). simpl.
  rewrite decide_False by (unfold end_; lia).
  rewrite umod_Returns by lia. simpl.
  unfold back. rewrite Hlast. simpl.
  rewrite umod_Returns by lia. simpl.
  fold (bucket_for (bucket_count m) key).
  fold (bucket_for (bucket_count m) last_kv.1).
  rewrite (vec_at_nat _ _ _ Hp0). simpl.
  pose proof (bucket_for_range (bucket_count m) key Hn) as Hr0.
  pose proof (bucket_for_range (bucket_count m) last_kv.1 Hn) as Hr1.
  destruct (bucket_for_lookup _ _ _ key Hn Hix) as [bucket0 Hb0].
  rewrite (vec_update_Returns _ _ bucket0) by (done || lia). simpl.
  destruct (lookup_lt_is_Some_2
              (<[Z.to_nat (bucket_for (bucket_count m) key) :=
                   swap_pop (Z.of_nat p0) bucket0]> (hashed_pointers_ m))
              (Z.to_nat (bucket_for (bucket_count m) last_kv.1)))
    as [bucket1 Hb1].
  { rewrite length_insert. unfold bucket_count, vec_size in *. lia. }
  rewrite (vec_update_Returns _ _ bucket1) by (done || lia). simpl.
  replace (to_size_t (size m - 1))
    with (Z.of_nat (length (value_store_ m) - 1)).
  2:{ rewrite to_size_t_id by lia. unfold size, vec_size. lia. }
  rewrite Nat2Z.id.
  set (m' := {| value_store_ := _; hashed_pointers_ := _ |}).
  assert (bucket_count m' = bucket_count m) as Hbc.
  { unfold bucket_count, vec_size. simpl. by rewrite !length_insert. }
  exists m', last_kv. split_and!; [done|done|done|done|].
  split_and!.
  - by rewrite Hbc.
  - unfold keys. simpl. by apply erase_keys_NoDup.
  - rewrite Hbc. simpl. eapply erase_indexed; try done; subst key; lia.
Qed.

Lemma erase_size m m' p0 kv0 last_kv :
  value_store_ m !! p0 = Some kv0 →
  value_store_ m' =
    pop_back (set_back (<[p0 := last_kv]> (value_store_ m)) kv0) →
  size m' = size m - 1.
Proof.
  intros Hlt%lookup_lt_Some Hvs. unfold size, vec_size.
  rewrite Hvs, erase_store_length. lia.
Qed.

(** The key erased is no longer stored. *)
Lemma erase_key_gone vs p0 kv0 last_kv :
  NoDup vs.*1 → vs !! p0 = Some kv0 → last vs = Some last_kv →
  kv0.1 ∉ (pop_back (set_back (<[p0 := last_kv]> vs) kv0)).*1.
Proof.
  intros Hnd Hp0 Hlast (p & Hp)%list_elem_of_lookup.
  rewrite last_lookup in Hlast.
  rewrite list_lookup_fmap, erase_store_lookup in Hp.
  case_decide as Hlt; [|done]. case_decide as Hpp.
  - subst p. simpl in Hp. inversion Hp as [Hk].
    pose proof (same_key_same_position _ _ _ _ _ Hnd Hp0 Hlast) as Heq.
    symmetry in Hk. apply Heq in Hk. lia.
  - destruct (vs !! p) as [kv|] eqn:Hl; [|done].
    simpl in Hp. inversion Hp as [Hk]. symmetry in Hk.
    by pose proof (same_key_same_position _ _ _ _ _ Hnd Hp0 Hl Hk).
Qed.

(** [erase] keeps the invariant. *)
Lemma erase_Inv m key :
  Inv m → ∃ m', erase m key = Returns m' ∧ Inv m' ∧
                bucket_count m' = bucket_count m ∧ size m' ≤ size m.
Proof.
  intros HInv. pose proof (Inv_size_bound m HInv) as Hs.
  destruct HInv as (Hok & Hl & Hr). unfold int_range in *.
  destruct (decide (key ∈ keys m)) as [Hin|Hni].
  - destruct (key_present m key Hin) as (p0 & kv0 & Hp0 & Hk).
    destruct (erase_present m key p0 kv0) as (m' & last_kv & _ & He & Hvs & Hbc & Hok');
      [done|lia|done|done|].
    pose proof (erase_size m m' p0 kv0 last_kv Hp0 Hvs) as Hsz.
    exists m'. split_and!; [done| |done|lia].
    split_and!; [done| |by rewrite Hbc].
    unfold load_ok in *. rewrite Hbc, Hsz.
    unfold INCREMENT_FACTOR_, REALLOCATION_FACTOR_ in *. lia.
  - exists m. rewrite erase_absent by done. by split_and!.
Qed.

Lemma insert_Inv m kv :
  Inv m → can_double m →
  ∃ m', insert m kv = Returns m' ∧ Inv m' ∧
        bucket_count m ≤ bucket_count m' ∧
        size m ≤ size m' ≤ size m + 1 ∧
        (bucket_count m' ≤ 1 ∨ bucket_count m' ≤ bucket_count m ∨
         bucket_count m' ≤ REALLOCATION_FACTOR_ * size m').
Proof.
  intros HInv Hd. destruct (decide (kv.1 ∈ keys m)) as [Hin|Hni].
  - exists m. rewrite insert_present by (done || apply HInv).
    split_and!; [done|done|lia|lia|lia|lia].
  - destruct (insert_absent m kv HInv Hd Hni) as (m' & Hi & Hvs & HInv' & Hc).
    assert (size m' = size m + 1) as Hs.
    { unfold size, vec_size. rewrite Hvs, length_app. simpl. lia. }
    assert (bucket_count m' = bucket_count m ∨
            bucket_count m * INCREMENT_FACTOR_ ≤ REALLOCATION_FACTOR_ * size m' ∧
            bucket_count m' = bucket_count m * INCREMENT_FACTOR_) as Hn.
    { destruct Hc as [[_ Hhp]|[? ?]]; [left|right; split; [lia|done]].
      unfold bucket_count, vec_size. by rewrite Hhp, length_insert. }
    pose proof HInv as ((? & _) & _).
    exists m'. unfold INCREMENT_FACTOR_ in *.
    split_and!; [done|done|lia|lia|lia|lia].
Qed.

(** ** Construction and [clear] *)

Lemma Inv_new : Inv (@HashMap_new K V).
Proof.
  unfold Inv, index_ok, load_ok, int_range, bucket_count, size, keys; simpl.
  split_and!; [done|constructor| |done|done].
  split; [done|]. intros [|b] bucket Hb; [|done].
  inversion Hb. split; [constructor|].
  intros x. split; [by intros ?%elem_of_nil|]. by intros (p & kv & _ & ? & _).
Qed.

Lemma Inv_clear m : Inv (clear m).
Proof. apply Inv_new. Qed.

(** A table that has only grown has at most three buckets for each
    pair stored: the number of pairs bounds the number of buckets. *)
Lemma insert_all_spec (elems : list (K * V)) m :
  Inv m →
  (bucket_count m ≤ 1 ∨ bucket_count m ≤ REALLOCATION_FACTOR_ * size m) →
  REALLOCATION_FACTOR_ * (size m + vec_size elems) * INCREMENT_FACTOR_
    ≤ int_range →
  ∃ m', insert_all m elems = Returns m' ∧ Inv m' ∧
        bucket_count m ≤ bucket_count m' ∧
        size m ≤ size m' ≤ size m + vec_size elems.
Proof.
  unfold REALLOCATION_FACTOR_, INCREMENT_FACTOR_, int_range, vec_size.
  revert m. induction elems as [|elem elems IH]; intros m HInv Hg Hlen; simpl.
  - exists m. split_and!; [done|done|lia|lia|lia].
  - simpl in Hlen.
    assert (0 ≤ size m) by (unfold size, vec_size; lia).
    destruct (insert_Inv m elem HInv) as (m1 & -> & HInv1 & Hn1 & Hs1 & Hg1).
    { unfold can_double, INCREMENT_FACTOR_, int_range. lia. }
    simpl. unfold REALLOCATION_FACTOR_ in Hg1.
    destruct (IH m1 HInv1) as (m' & -> & HInv' & Hn' & Hs'); [lia|lia|].
    exists m'. split_and!; [done|done|lia|lia|lia].
Qed.

Lemma HashMap_of_spec (elems : list (K * V)) :
  REALLOCATION_FACTOR_ * vec_size elems * INCREMENT_FACTOR_ ≤ int_range →
  ∃ m, HashMap_of elems = Returns m ∧ Inv m.
Proof.
  intros Hlen. destruct (insert_all_spec elems HashMap_new Inv_new)
    as (m & Hm & HInv & _); [by left|done|].
  by exists m.
Qed.

Lemma Inv_HashMap_of (elems : list (K * V)) m :
  REALLOCATION_FACTOR_ * vec_size elems * INCREMENT_FACTOR_ ≤ int_range →
  HashMap_of elems = Returns m → Inv m.
Proof.
  intros Hlen Hm. destruct (HashMap_of_spec elems Hlen) as (m' & Hm' & HInv).
  congruence.
Qed.

(** ** Positions and buckets *)

Lemma occurrences_NoDup (x : Z) bucket :
  NoDup bucket →
  occurrences x bucket = if decide (x ∈ bucket) then 1%nat else 0%nat.
Proof.
  unfold occurrences. induction 1 as [|y bucket Hy Hnd IH].
  - rewrite decide_False; [done|]. by intros ?%elem_of_nil.
  - rewrite filter_cons. destruct (decide (y = x)) as [->|Hne]; simpl.
    + rewrite IH, decide_False by done. rewrite decide_True; [done|by left].
    + rewrite IH. destruct (decide (x ∈ bucket)) as [Hin|Hni].
      * rewrite decide_True; [done|by right].
      * rewrite decide_False; [done|].
        intros [?|?]%elem_of_cons; congruence.
Qed.

Lemma index_ok_bucket_index m : index_ok m → bucket_index_invariant m.
Proof.
  intros (Hn & Hnd & Hsz & Hix) p kv Hp.
  destruct (bucket_exists m kv.1 Hn) as [bucket Hb].
  pose proof (bucket_for_range (bucket_count m) kv.1 Hn) as Hr.
  exists bucket. split; [done|]. split.
  - destruct (Hix _ _ Hb) as [Hndb Hmem].
    rewrite occurrences_NoDup, decide_True; [done| |done].
    apply Hmem. exists p, kv. split_and!; [done|done|].
    unfold bucket_of. lia.
  - intros b' bucket' Hb' Hne. destruct (Hix _ _ Hb') as [Hndb Hmem].
    rewrite occurrences_NoDup, decide_False; [done| |done].
    intros (q & kv' & ->%Nat2Z.inj & Hq & Hk)%Hmem. simplify_eq.
    unfold bucket_of in Hne. lia.
Qed.

(** ** [at] and [operator[]] *)

Lemma at_present m p kv :
  index_ok m → value_store_ m !! p = Some kv → at_ m kv.1 = Returns kv.2.
Proof.
  intros Hok Hp. unfold at_.
  rewrite (find_present m kv.1 p kv Hok Hp eq_refl). simpl.
  pose proof (position_lt_size m p kv Hp).
  rewrite decide_False by (unfold end_; lia).
  by rewrite (vec_at_nat _ _ _ Hp).
Qed.

Lemma at_absent m key :
  index_ok m → key ∉ keys m → at_ m key = Throws_out_of_range.
Proof.
  intros Hok Hni. unfold at_. rewrite (find_absent m key Hok Hni). simpl.
  by rewrite decide_True.
Qed.

Lemma subscript_present m p kv :
  index_ok m → value_store_ m !! p = Some kv →
  subscript m kv.1 = Returns (Z.of_nat p, m).
Proof.
  intros Hok Hp. unfold subscript.
  rewrite (find_present m kv.1 p kv Hok Hp eq_refl). simpl.
  pose proof (position_lt_size m p kv Hp).
  rewrite decide_False by (unfold end_; lia).
  by rewrite (vec_at_nat _ _ _ Hp).
Qed.

Lemma subscript_absent m key :
  Inv m → can_double m → key ∉ keys m →
  ∃ m', insert m (key, inhabitant) = Returns m' ∧
        subscript m key = Returns (size m, m') ∧
        value_store_ m' = value_store_ m ++ [(key, inhabitant)] ∧
        Inv m'.
Proof.
  intros HInv Hd Hni.
  destruct (insert_absent m (key, inhabitant) HInv Hd Hni)
    as (m' & Hi & Hvs & HInv' & _).
  exists m'. split_and!; [done| |done|done].
  unfold subscript. rewrite (find_absent m key (proj1 HInv) Hni). simpl.
  rewrite decide_True by done. rewrite Hi. simpl.
  assert (value_store_ m' !! length (value_store_ m)
          = Some (key, inhabitant)) as Hp.
  { by rewrite Hvs, lookup_app_r, Nat.sub_diag by lia. }
  rewrite (find_present m' key _ _ (proj1 HInv') Hp eq_refl). simpl.
  by rewrite (vec_at_nat _ _ _ Hp).
Qed.

(** ** No member function but [at] throws *)

Lemma no_throw_bind {A B} (c : outcome A) (f : A → outcome B) :
  no_throw c → (∀ a, no_throw (f a)) → no_throw (c ≫= f).
Proof. unfold no_throw. destruct c; simpl; naive_solver. Qed.

Lemma no_throw_vec_at {A} (v : list A) (i : Z) : no_throw (vec_at v i).
Proof. unfold vec_at. case_decide; [|done]. by destruct (v !! Z.to_nat i). Qed.

Lemma no_throw_umod (a b : Z) : no_throw (umod a b).
Proof. unfold umod. by case_decide. Qed.

Lemma no_throw_vec_update {A} (v : list A) (i : Z) (f : A → A) :
  no_throw (vec_update v i f).
Proof. apply no_throw_bind; [apply no_throw_vec_at|done]. Qed.

Lemma no_throw_find_loop m key bucket : no_throw (find_loop m key bucket).
Proof.
  induction bucket as [|x bucket IH]; simpl; [done|].
  apply no_throw_bind; [apply no_throw_vec_at|].
  intros kv. by case_decide.
Qed.

Lemma no_throw_find m key : no_throw (find m key).
Proof.
  apply no_throw_bind; [apply no_throw_umod|]. intros h.
  apply no_throw_bind; [apply no_throw_vec_at|]. intros bucket.
  apply no_throw_find_loop.
Qed.

Lemma no_throw_rehash_loop (n i : Z) (rest : list (K * V)) hp :
  no_throw (rehash_loop n i rest hp).
Proof.
  revert i hp. induction rest as [|kv rest IH]; intros i hp; simpl; [done|].
  apply no_throw_bind; [apply no_throw_umod|]. intros r.
  apply no_throw_bind; [apply no_throw_vec_update|]. intros hp'. apply IH.
Qed.

Lemma no_throw_check_and_reallocate m : no_throw (check_and_reallocate m).
Proof.
  unfold check_and_reallocate. case_decide; [|done].
  apply no_throw_bind; [apply no_throw_rehash_loop|done].
Qed.

Lemma no_throw_insert m kv : no_throw (insert m kv).
Proof.
  apply no_throw_bind; [apply no_throw_find|]. intros it.
  case_decide; [|done].
  apply no_throw_bind; [apply no_throw_umod|]. intros slot.
  apply no_throw_bind; [apply no_throw_vec_update|]. intros hp.
  apply no_throw_check_and_reallocate.
Qed.

Lemma no_throw_erase m key : no_throw (erase m key).
Proof.
  apply no_throw_bind; [apply no_throw_find|]. intros it.
  case_decide; [done|].
  apply no_throw_bind; [apply no_throw_find|]. intros curiter.
  apply no_throw_bind; [apply no_throw_umod|]. intros hash0.
  apply no_throw_bind; [unfold back; by destruct (last _)|]. intros last_kv.
  apply no_throw_bind; [apply no_throw_umod|]. intros hash1.
  apply no_throw_bind; [apply no_throw_vec_at|]. intros kv0.
  apply no_throw_bind; [apply no_throw_vec_update|]. intros hp0.
  apply no_throw_bind; [apply no_throw_vec_update|]. done.
Qed.

Lemma no_throw_subscript m key : no_throw (subscript m key).
Proof.
  apply no_throw_bind; [apply no_throw_find|]. intros it.
  case_decide.
  - apply no_throw_bind; [apply no_throw_insert|]. intros m'.
    apply no_throw_bind; [apply no_throw_find|]. intros it'.
    apply no_throw_bind; [apply no_throw_vec_at|]. done.
  - apply no_throw_bind; [apply no_throw_find|]. intros it'.
    apply no_throw_bind; [apply no_throw_vec_at|]. done.
Qed.

Lemma no_throw_insert_all (elems : list (K * V)) m :
  no_throw (insert_all m elems).
Proof.
  revert m. induction elems as [|elem elems IH]; intros m; simpl; [done|].
  apply no_throw_bind; [apply no_throw_insert|]. intros m'. apply IH.
Qed.

(** ** The load factor, whatever the state of the index *)

Lemma rehash_loop_size (n i : Z) (rest : list (K * V)) hp hp' :
  rehash_loop n i rest hp = Returns hp' → vec_size hp' = vec_size hp.
Proof.
  revert i hp. induction rest as [|kv rest IH]; intros i hp; simpl.
  - by intros [= ->].
  - intros (r & _ & (hp1 & Hu & Hl)%bind_Returns)%bind_Returns.
    rewrite (IH _ _ Hl). by eapply vec_update_size.
Qed.

Lemma check_and_reallocate_load m m' :
  1 ≤ bucket_count m → bucket_count m * INCREMENT_FACTOR_ < 2 ^ 64 →
  REALLOCATION_FACTOR_ * (size m - 1) < bucket_count m * INCREMENT_FACTOR_ →
  check_and_reallocate m = Returns m' →
  value_store_ m' = value_store_ m ∧ load_ok m' ∧
  ((bucket_count m' = bucket_count m ∧ load_ok m) ∨
   (bucket_count m' = bucket_count m * INCREMENT_FACTOR_ ∧ ¬ load_ok m)).
Proof.
  unfold load_ok, INCREMENT_FACTOR_, REALLOCATION_FACTOR_.
  intros Hn Hr Hl. unfold check_and_reallocate.
  assert (0 ≤ size m) by (unfold size, vec_size; lia).
  unfold INCREMENT_FACTOR_, REALLOCATION_FACTOR_.
  rewrite (to_size_t_id (bucket_count m * 2)) by lia.
  rewrite (to_size_t_id (3 * size m)) by lia.
  case_decide as Hc.
  - intros (hp & Hhp%rehash_loop_size & [= <-])%bind_Returns.
    assert (vec_size hp = bucket_count m * 2) as Hhp'.
    { rewrite Hhp. unfold vec_size. rewrite length_replicate. lia. }
    unfold bucket_count, size in *. simpl. rewrite Hhp'.
    split; [done|]. split; [lia|]. right. lia.
  - intros [= <-]. split; [done|]. split; [lia|]. left. lia.
Qed.

Lemma insert_load m kv m' :
  load_ok m → bucket_count m * INCREMENT_FACTOR_ < 2 ^ 64 →
  insert m kv = Returns m' →
  load_ok m' ∧
  (m' = m ∨
   size m' = size m + 1 ∧
   (bucket_count m' = bucket_count m ∨
    bucket_count m' = bucket_count m * INCREMENT_FACTOR_ ∧
    bucket_count m * INCREMENT_FACTOR_ ≤ REALLOCATION_FACTOR_ * size m')).
Proof.
  intros Hl Hr. unfold insert.
  intros (it & Hf & Hi)%bind_Returns. case_decide as Hit.
  2:{ inversion Hi; subst. split; [done|by left]. }
  apply bind_Returns in Hi as (slot & _ & (hp & Hu & Hc)%bind_Returns).
  apply vec_update_size in Hu.
  assert (0 ≤ size m) by (unfold size, vec_size; lia).
  unfold load_ok, INCREMENT_FACTOR_, REALLOCATION_FACTOR_ in *.
  set (m1 := {| value_store_ := _; hashed_pointers_ := _ |}) in Hc.
  assert (bucket_count m1 = bucket_count m) as Hn1 by done.
  assert (size m1 = size m + 1) as Hs1.
  { unfold size, vec_size, m1. simpl. unfold push_back.
    rewrite length_app. simpl. lia. }
  apply check_and_reallocate_load in Hc as (Hvs & Hl' & Hn).
  - split; [done|]. right.
    assert (size m' = size m + 1) as Hs' by (unfold size in *; by rewrite Hvs).
    split; [done|]. rewrite Hn1 in Hn. unfold load_ok in Hn.
    rewrite Hn1, Hs1 in Hn. rewrite Hs'.
    unfold INCREMENT_FACTOR_, REALLOCATION_FACTOR_ in Hn.
    destruct Hn as [[? _]|[? ?]]; [by left|right; split; [done|lia]].
  - lia.
  - unfold INCREMENT_FACTOR_. lia.
  - unfold INCREMENT_FACTOR_, REALLOCATION_FACTOR_. lia.
Qed.

(** A sequence of inserts, as the constructors run it. *)
Lemma insert_all_load (elems : list (K * V)) m m' :
  load_ok m → bucket_count m * INCREMENT_FACTOR_ < 2 ^ 64 →
  REALLOCATION_FACTOR_ * (size m + vec_size elems) * INCREMENT_FACTOR_
    < 2 ^ 64 →
  insert_all m elems = Returns m' →
  load_ok m' ∧ bucket_count m ≤ bucket_count m'.
Proof.
  unfold REALLOCATION_FACTOR_, INCREMENT_FACTOR_, vec_size.
  revert m. induction elems as [|elem elems IH]; intros m Hl Hr Hlen; simpl.
  - intros [= <-]. split; [done|lia].
  - intros (m1 & Hi & Hall)%bind_Returns.
    assert (0 ≤ size m) by (unfold size, vec_size; lia).
    destruct (insert_load m elem m1 Hl Hr Hi) as [Hl1 Hc].
    assert (bucket_count m ≤ bucket_count m1 ∧ size m1 ≤ size m + 1 ∧
            bucket_count m1 * 2 < 2 ^ 64) as (Hn1 & Hs1 & Hr1).
    { unfold load_ok, REALLOCATION_FACTOR_, INCREMENT_FACTOR_ in *.
      simpl in Hlen. destruct Hc as [->|[Hs [Hn|[Hn ?]]]]; lia. }
    simpl in Hlen. apply IH in Hall as [Hl' Hn']; [split; [done|lia]|done|lia|lia].
Qed.

Lemma erase_load m key m' :
  erase m key = Returns m' →
  bucket_count m' = bucket_count m ∧ size m' ≤ size m.
Proof.
  unfold erase. intros (it & Hf & He)%bind_Returns. case_decide as Hit.
  { inversion He; subst. split; [done|lia]. }
  apply bind_Returns in He as (curiter & _ & He).
  apply bind_Returns in He as (hash0 & _ & He).
  apply bind_Returns in He as (last_kv & _ & He).
  apply bind_Returns in He as (hash1 & _ & He).
  apply bind_Returns in He as (kv0 & _ & He).
  apply bind_Returns in He as (hp0 & Hu0%vec_update_size & He).
  apply bind_Returns in He as (hp1 & Hu1%vec_update_size & [= <-]).
  unfold bucket_count, size. simpl. split; [congruence|].
  unfold vec_size, pop_back, set_back.
  rewrite length_take, !length_insert. lia.
Qed.

Lemma subscript_inserts m key it m' :
  subscript m key = Returns (it, m') →
  m' = m ∨ insert m (key, inhabitant) = Returns m'.
Proof.
  unfold subscript. intros (it0 & _ & Hs)%bind_Returns. case_decide.
  - apply bind_Returns in Hs as (m1 & Hi & Hs).
    apply bind_Returns in Hs as (it' & _ & Hs).
    apply bind_Returns in Hs as (? & _ & [= _ <-]). by right.
  - apply bind_Returns in Hs as (it' & _ & Hs).
    apply bind_Returns in Hs as (? & _ & [= _ <-]). by left.
Qed.

(** ** Beyond the range of [int] *)

(** A rehash to more than [int_range] buckets still files every position
    under [rehash_bucket], which is then no longer the bucket of the key. *)
Lemma check_and_reallocate_rehashes m :
  1 ≤ bucket_count m → bucket_count m * INCREMENT_FACTOR_ < 2 ^ 64 →
  REALLOCATION_FACTOR_ * size m < 2 ^ 64 →
  bucket_count m * INCREMENT_FACTOR_ ≤ REALLOCATION_FACTOR_ * size m →
  Forall (λ kv, rehash_bucket (bucket_count m * INCREMENT_FACTOR_) kv.1
                < bucket_count m * INCREMENT_FACTOR_) (value_store_ m) →
  ∃ m', check_and_reallocate m = Returns m' ∧
        value_store_ m' = value_store_ m ∧
        bucket_count m' = bucket_count m * INCREMENT_FACTOR_ ∧
        indexed_by (rehash_bucket (bucket_count m * INCREMENT_FACTOR_))
          (value_store_ m') (hashed_pointers_ m').
Proof.
  unfold INCREMENT_FACTOR_, REALLOCATION_FACTOR_.
  intros Hn Hr Hs Htrig Hrg. unfold check_and_reallocate.
  assert (0 ≤ size m) by (unfold size, vec_size; lia).
  unfold INCREMENT_FACTOR_, REALLOCATION_FACTOR_.
  rewrite (to_size_t_id (bucket_count m * 2)) by lia.
  rewrite (to_size_t_id (3 * size m)) by lia.
  rewrite decide_True by done.
  assert (vec_size (replicate (Z.to_nat (bucket_count m * 2)) (@nil Z))
          = bucket_count m * 2) as Hsz.
  { unfold vec_size. rewrite length_replicate. lia. }
  destruct (rehash_loop_gen (bucket_count m * 2) (value_store_ m) []
              (replicate (Z.to_nat (bucket_count m * 2)) []))
    as (hp' & Hl & Hsz' & Hix);
    [lia|simpl; unfold size in *; lia|by rewrite Hsz|apply indexed_by_empty|].
  change (vec_size (@nil (K * V))) with 0 in Hl. rewrite Hl. simpl.
  eexists. split; [done|]. split_and!; [done| |done].
  unfold bucket_count at 1. simpl. congruence.
Qed.

Lemma insert_rehashes m kv :
  index_ok m → kv.1 ∉ keys m →
  bucket_count m * INCREMENT_FACTOR_ < 2 ^ 64 →
  REALLOCATION_FACTOR_ * (size m + 1) < 2 ^ 64 →
  bucket_count m * INCREMENT_FACTOR_ ≤ REALLOCATION_FACTOR_ * (size m + 1) →
  Forall (λ kv', rehash_bucket (bucket_count m * INCREMENT_FACTOR_) kv'.1
                 < bucket_count m * INCREMENT_FACTOR_)
         (value_store_ m ++ [kv]) →
  ∃ m', insert m kv = Returns m' ∧
        value_store_ m' = value_store_ m ++ [kv] ∧
        bucket_count m' = bucket_count m * INCREMENT_FACTOR_ ∧
        indexed_by (rehash_bucket (bucket_count m * INCREMENT_FACTOR_))
          (value_store_ m') (hashed_pointers_ m').
Proof.
  intros Hok Hni Hr Hs Htrig Hrg. pose proof Hok as (Hn & Hnd & Hix).
  assert (0 ≤ size m) by (unfold size, vec_size; lia).
  unfold insert. rewrite (find_absent m kv.1 Hok Hni). simpl.
  rewrite decide_True by done.
  rewrite umod_Returns by lia. simpl.
  fold (bucket_for (bucket_count m) kv.1).
  destruct (bucket_for_lookup _ _ _ kv.1 Hn Hix) as [bucket Hb].
  pose proof (bucket_for_range (bucket_count m) kv.1 Hn) as Hbr.
  rewrite (vec_update_Returns _ _ bucket) by (done || lia). simpl.
  set (m1 := {| value_store_ := _; hashed_pointers_ := _ |}).
  assert (bucket_count m1 = bucket_count m) as Hn1.
  { unfold bucket_count, vec_size. simpl. by rewrite length_insert. }
  assert (size m1 = size m + 1) as Hs1.
  { unfold size, vec_size, m1. simpl. unfold push_back.
    rewrite length_app. simpl. lia. }
  destruct (check_and_reallocate_rehashes m1) as (m' & Hc & Hvs & Hn' & Hix');
    rewrite ?Hn1, ?Hs1; try done.
  exists m'. rewrite Hn1 in Hn', Hix'. by split_and!.
Qed.

Lemma indexed_by_ext_keys (f g : K → Z) vs hp :
  Forall (λ kv, f kv.1 = g kv.1) vs →
  indexed_by f vs hp → indexed_by g vs hp.
Proof.
  intros Hfg Hix b bucket Hb. destruct (Hix _ _ Hb) as [Hnd Hmem].
  split; [done|]. intros x. rewrite Hmem.
  split; intros (p & kv & ? & Hl & Hk); exists p, kv;
    (split_and!; [done|done|]);
    pose proof (proj1 (Forall_lookup _ _) Hfg p kv Hl) as Heq;
    simpl in Heq; congruence.
Qed.

Lemma check_and_reallocate_idle m :
  bucket_count m * INCREMENT_FACTOR_ < 2 ^ 64 → load_ok m →
  check_and_reallocate m = Returns m.
Proof.
  unfold load_ok, INCREMENT_FACTOR_, REALLOCATION_FACTOR_.
  intros Hr Hl. unfold check_and_reallocate.
  assert (0 ≤ size m) by (unfold size, vec_size; lia).
  assert (0 ≤ bucket_count m) by (unfold bucket_count, vec_size; lia).
  unfold INCREMENT_FACTOR_, REALLOCATION_FACTOR_.
  rewrite (to_size_t_id (bucket_count m * 2)) by lia.
  rewrite (to_size_t_id (3 * size m)) by lia.
  by rewrite decide_False by lia.
Qed.

(** [insert] keeps the index whenever the conversion to [int] is exact
    for the keys at hand. *)
Lemma insert_exact m kv :
  index_ok m → load_ok m → kv.1 ∉ keys m →
  bucket_count m * INCREMENT_FACTOR_ < 2 ^ 64 →
  (bucket_count m * INCREMENT_FACTOR_ ≤ REALLOCATION_FACTOR_ * (size m + 1) →
   Forall (λ kv', rehash_bucket (bucket_count m * INCREMENT_FACTOR_) kv'.1
                  = bucket_for (bucket_count m * INCREMENT_FACTOR_) kv'.1)
          (value_store_ m ++ [kv])) →
  ∃ m', insert m kv = Returns m' ∧
        value_store_ m' = value_store_ m ++ [kv] ∧
        index_ok m' ∧ load_ok m' ∧
        bucket_count m' =
          if decide (bucket_count m * INCREMENT_FACTOR_
                     ≤ REALLOCATION_FACTOR_ * (size m + 1))
          then bucket_count m * INCREMENT_FACTOR_ else bucket_count m.
Proof.
  intros Hok Hl Hni Hr Hexact. pose proof Hok as (Hn & Hnd & Hix).
  assert (0 ≤ size m) by (unfold size, vec_size; lia).
  assert (NoDup (value_store_ m ++ [kv]).*1) as Hnd'.
  { rewrite fmap_app. simpl. apply NoDup_app.
    split_and!; [done| |apply NoDup_singleton].
    by intros x Hx ->%list_elem_of_singleton. }
  unfold load_ok, INCREMENT_FACTOR_, REALLOCATION_FACTOR_ in *.
  case_decide as Htrig.
  - destruct (insert_rehashes m kv) as (m' & Hi & Hvs & Hn' & Hix');
      unfold INCREMENT_FACTOR_, REALLOCATION_FACTOR_; [done|done|lia|lia|lia| |].
    { eapply Forall_impl; [exact (Hexact Htrig)|]. intros kv' ->.
      apply bucket_for_range. lia. }
    unfold INCREMENT_FACTOR_ in *.
    exists m'. split_and!; [done|done| |unfold size in *; rewrite Hn', Hvs|done].
    + split_and!; [lia|by unfold keys; rewrite Hvs|].
      split; [done|]. rewrite Hn'.
      eapply indexed_by_ext_keys; [|done]. rewrite Hvs. by apply Hexact.
    + unfold vec_size in *. rewrite length_app. simpl. lia.
  - unfold insert. rewrite (find_absent m kv.1 Hok Hni). simpl.
    rewrite decide_True by done. rewrite umod_Returns by lia. simpl.
    fold (bucket_for (bucket_count m) kv.1).
    destruct (bucket_for_lookup _ _ _ kv.1 Hn Hix) as [bucket Hb].
    pose proof (bucket_for_range (bucket_count m) kv.1 Hn) as Hbr.
    rewrite (vec_update_Returns _ _ bucket) by (done || lia). simpl.
    replace (to_size_t (vec_size (push_back (value_store_ m) kv) - 1))
      with (vec_size (value_store_ m)).
    2:{ unfold push_back, vec_size. rewrite length_app. simpl.
        unfold size, vec_size in *. rewrite to_size_t_id; lia. }
    set (m1 := {| value_store_ := push_back (value_store_ m) kv;
                  hashed_pointers_ := _ |}).
    assert (bucket_count m1 = bucket_count m) as Hn1.
    { unfold bucket_count, vec_size. simpl. by rewrite length_insert. }
    assert (size m1 = size m + 1) as Hs1.
    { unfold size, vec_size, m1. simpl. unfold push_back.
      rewrite length_app. simpl. lia. }
    assert (load_ok m1) as Hl1.
    { unfold load_ok, INCREMENT_FACTOR_, REALLOCATION_FACTOR_.
      rewrite Hn1, Hs1. lia. }
    rewrite check_and_reallocate_idle by (done || (rewrite Hn1; done)).
    exists m1. split_and!; [done|done| |done|done].
    split_and!; [lia|done|].
    rewrite Hn1. unfold m1. simpl. by apply indexed_push.
Qed.

(** When [int cur_position] changes the bucket number of the key inserted,
    the key is not found afterwards and the bucket index is broken. *)
Lemma insert_misfiles m kv :
  index_ok m → kv.1 ∉ keys m →
  bucket_count m * INCREMENT_FACTOR_ < 2 ^ 64 →
  REALLOCATION_FACTOR_ * (size m + 1) < 2 ^ 64 →
  bucket_count m * INCREMENT_FACTOR_ ≤ REALLOCATION_FACTOR_ * (size m + 1) →
  Forall (λ kv', rehash_bucket (bucket_count m * INCREMENT_FACTOR_) kv'.1
                 < bucket_count m * INCREMENT_FACTOR_)
         (value_store_ m ++ [kv]) →
  rehash_bucket (bucket_count m * INCREMENT_FACTOR_) kv.1
    ≠ bucket_for (bucket_count m * INCREMENT_FACTOR_) kv.1 →
  ∃ m', insert m kv = Returns m' ∧
        find m' kv.1 = Returns (end_ m') ∧
        ¬ bucket_index_invariant m'.
Proof.
  intros Hok Hni Hr Hs Htrig Hrg Hne.
  destruct (insert_rehashes m kv Hok Hni Hr Hs Htrig Hrg)
    as (m' & Hi & Hvs & Hn' & Hix').
  pose proof Hok as (Hn & _). unfold INCREMENT_FACTOR_ in *.
  assert (1 ≤ bucket_count m') as Hn1 by lia.
  assert (value_store_ m' !! length (value_store_ m) = Some kv) as Hp.
  { by rewrite Hvs, lookup_app_r, Nat.sub_diag by lia. }
  assert (∀ bucket,
    hashed_pointers_ m' !! Z.to_nat (bucket_of m' kv.1) = Some bucket →
    ∀ p kv', Z.of_nat p ∈ bucket → value_store_ m' !! p = Some kv' →
             kv'.1 ≠ kv.1) as Hclean.
  { intros bucket Hb p kv' Hin Hl Hk. destruct (Hix' _ _ Hb) as [_ Hmem].
    apply Hmem in Hin as (p' & kv'' & ->%Nat2Z.inj & Hl' & Hbk).
    pose proof (bucket_for_range (bucket_count m') kv.1 Hn1).
    simplify_eq. apply Hne. rewrite Hk in Hbk. rewrite Hbk.
    unfold bucket_of in *. rewrite Hn' in *. lia. }
  destruct (bucket_exists m' kv.1 Hn1) as [bucket Hb].
  exists m'. split_and!; [done| |].
  - rewrite (find_unfold m' kv.1 bucket Hn1 Hb).
    destruct (find_loop_spec m' kv.1 bucket) as [(p & kv' & _ & Hin & Hl & Hk)|[-> _]];
      [|by eapply Hclean in Hk|done].
    intros x Hx. destruct (Hix' _ _ Hb) as [_ Hmem].
    apply Hmem in Hx as (p & kv' & -> & Hl & _). eauto.
  - intros Hbii. destruct (Hbii _ _ Hp) as (bucket' & Hb' & Hocc & _).
    simplify_eq. destruct (Hix' _ _ Hb) as [Hnd _].
    rewrite occurrences_NoDup in Hocc by done.
    case_decide as Hin; [|done]. by eapply Hclean.
Qed.

(** [operator[]] then reads [value_store_] at [end()]. *)
Lemma subscript_misfiled m m' key :
  find m key = Returns (end_ m) →
  insert m (key, inhabitant) = Returns m' →
  find m' key = Returns (end_ m') →
  subscript m key = Undefined.
Proof.
  intros Hf Hi Hf'. unfold subscript. rewrite Hf. simpl.
  rewrite decide_True by done. rewrite Hi. simpl. rewrite Hf'. simpl.
  unfold vec_at, end_, size, vec_size. rewrite decide_True by lia.
  by rewrite Nat2Z.id, lookup_ge_None_2.
Qed.

(** ** Properties of the specification *)

(** X1 — Within the range of [int], the constructors establish and
    every member function keeps the whole invariant, and with it the
    bucket index: every live position is in exactly one bucket, that of
    its key. *)
Theorem Inv_maintained m :
  Inv m →
  bucket_index_invariant m ∧
  (∀ kv, can_double m →
     ∃ m', insert m kv = Returns m' ∧ Inv m' ∧ bucket_index_invariant m') ∧
  (∀ key,
     ∃ m', erase m key = Returns m' ∧ Inv m' ∧ bucket_index_invariant m') ∧
  (∀ key, can_double m →
     ∃ it m', subscript m key = Returns (it, m') ∧ Inv m' ∧
              bucket_index_invariant m') ∧
  (Inv (clear m) ∧ bucket_index_invariant (clear m)) ∧
  (Inv (@HashMap_new K V) ∧ bucket_index_invariant (@HashMap_new K V)) ∧
  (∀ elems : list (K * V),
     REALLOCATION_FACTOR_ * vec_size elems * INCREMENT_FACTOR_ ≤ int_range →
     ∃ m', HashMap_of elems = Returns m' ∧ Inv m' ∧
           bucket_index_invariant m').
Proof.
  intros HInv. split_and!.
  - apply index_ok_bucket_index, HInv.
  - intros kv Hd. destruct (insert_Inv m kv HInv Hd) as (m' & ? & HInv' & _).
    exists m'. split_and!; [done|done|]. apply index_ok_bucket_index, HInv'.
  - intros key. destruct (erase_Inv m key HInv) as (m' & ? & HInv' & _).
    exists m'. split_and!; [done|done|]. apply index_ok_bucket_index, HInv'.
  - intros key Hd. destruct (decide (key ∈ keys m)) as [Hin|Hni].
    + destruct (key_present m key Hin) as (p & kv & Hp & <-).
      exists (Z.of_nat p), m.
      rewrite (subscript_present m p kv) by (done || apply HInv).
      split_and!; [done|done|]. apply index_ok_bucket_index, HInv.
    + destruct (subscript_absent m key HInv Hd Hni) as (m' & _ & ? & _ & HInv').
      exists (size m), m'. split_and!; [done|done|].
      apply index_ok_bucket_index, HInv'.
  - apply Inv_clear.
  - apply index_ok_bucket_index, Inv_clear.
  - apply Inv_new.
  - apply index_ok_bucket_index, Inv_new.
  - intros elems Hlen. destruct (HashMap_of_spec elems Hlen) as (m' & ? & HInv').
    exists m'. split_and!; [done|done|]. apply index_ok_bucket_index, HInv'.
Qed.

(** C2 — Swap-compaction erase.  Erasing the key stored at position [p0]
    leaves a store one pair shorter, with a pair at every position below
    its size; the last pair of the old store is at [p0] (unless [p0] was
    the last position) and every other pair is where it was.  With pairs
    [A], [B], [C] at positions 0, 1, 2, erasing the key of [B] leaves
    [A], [C], size 2, and [find] of the key of [C] at position 1. *)
Theorem erase_swap_compaction m :
  index_ok m → size m < 2 ^ 64 →
  (∀ key p0 kv0, value_store_ m !! p0 = Some kv0 → kv0.1 = key →
     ∃ m' last_kv,
       erase m key = Returns m' ∧ index_ok m' ∧
       vec_at (value_store_ m) (size m - 1) = Returns last_kv ∧
       size m' = size m - 1 ∧
       (∀ p, is_Some (value_store_ m' !! p) ↔ Z.of_nat p < size m') ∧
       (∀ p, Z.of_nat p < size m' → p ≠ p0 →
             value_store_ m' !! p = value_store_ m !! p) ∧
       (Z.of_nat p0 ≠ size m - 1 → value_store_ m' !! p0 = Some last_kv)) ∧
  (∀ A B C, value_store_ m = [A; B; C] →
     ∃ m', erase m B.1 = Returns m' ∧ value_store_ m' = [A; C] ∧
           size m' = 2 ∧ find m' C.1 = Returns 1).
Proof.
  intros Hok Hs. split.
  - intros key p0 kv0 Hp0 Hk.
    destruct (erase_present m key p0 kv0 Hok Hs Hp0 Hk)
      as (m' & last_kv & Hlast & He & Hvs & _ & Hok').
    pose proof (erase_size m m' p0 kv0 last_kv Hp0 Hvs) as Hsz.
    pose proof (lookup_lt_Some _ _ _ Hp0) as Hlt.
    exists m', last_kv. split_and!; [done|done| |done|..].
    + rewrite last_lookup in Hlast. apply vec_at_Returns.
      unfold size, vec_size.
      replace (Z.to_nat (Z.of_nat (length (value_store_ m)) - 1))
        with (pred (length (value_store_ m))) by lia.
      split; [lia|done].
    + intros p. rewrite lookup_lt_is_Some. unfold size, vec_size. lia.
    + intros p Hp Hne. rewrite Hvs, erase_store_lookup.
      unfold size, vec_size in *.
      rewrite decide_True by lia. by rewrite decide_False.
    + intros Hne. rewrite Hvs, erase_store_lookup.
      unfold size, vec_size in *.
      rewrite decide_True by lia. by rewrite decide_True.
  - intros A B C Hvs.
    destruct (erase_present m B.1 1 B Hok Hs) as
      (m' & last_kv & Hlast & He & Hvs' & _ & Hok'); [by rewrite Hvs|done|].
    rewrite Hvs in Hlast, Hvs'. simpl in Hlast. inversion Hlast; subst last_kv.
    exists m'. split_and!; [done|done|by unfold size; rewrite Hvs'|].
    apply (find_present m' C.1 1 C); [done|by rewrite Hvs'|done].
Qed.

(** C6 — Erase completeness.  After [erase] of a key, [find] of that
    key returns [end()]; the size is one less if the key was stored, and
    the container is unchanged if it was not. *)
Theorem erase_completeness m key :
  index_ok m → size m < 2 ^ 64 →
  ∃ m', erase m key = Returns m' ∧ index_ok m' ∧
        find m' key = Returns (end_ m') ∧
        (key ∈ keys m → size m' = size m - 1) ∧
        (key ∉ keys m → m' = m).
Proof.
  intros Hok Hs. destruct (decide (key ∈ keys m)) as [Hin|Hni].
  - destruct (key_present m key Hin) as (p0 & kv0 & Hp0 & Hk).
    destruct (erase_present m key p0 kv0 Hok Hs Hp0 Hk)
      as (m' & last_kv & Hlast & He & Hvs & _ & Hok').
    exists m'. split_and!; [done|done| | |done].
    + apply find_absent; [done|]. unfold keys. rewrite Hvs. subst key.
      apply erase_key_gone; [apply Hok|done|done].
    + intros _. by eapply erase_size.
  - exists m. rewrite erase_absent by done.
    split_and!; [done|done|by apply find_absent|done|done].
Qed.

(** C7 — First insert wins.  Inserting a pair whose key is already
    stored, with value [V0], returns the container as it was: [at] still
    gives [V0], and the size and the buckets are the same (no rehash). *)
Theorem insert_first_wins m p K0 (V0 V2 : V) :
  index_ok m → value_store_ m !! p = Some (K0, V0) →
  ∃ m', insert m (K0, V2) = Returns m' ∧ m' = m ∧
        at_ m' K0 = Returns V0 ∧ size m' = size m ∧
        hashed_pointers_ m' = hashed_pointers_ m.
Proof.
  intros Hok Hp. exists m. split_and!; [|done| |done|done].
  - apply insert_present; [done|]. simpl.
    apply list_elem_of_lookup. exists p. by apply keys_lookup in Hp.
  - by apply (at_present m p (K0, V0)).
Qed.

(** C8 — The contract of [at].  [at] returns the value stored under the
    key when there is one and throws [std::out_of_range] exactly when
    there is none; being a [const] member it yields no new container.
    [find] reports a missing key by [end()], and no other member
    function throws, whatever the container. *)
Theorem at_contract m key :
  index_ok m →
  (∀ p kv, value_store_ m !! p = Some kv → kv.1 = key →
           at_ m key = Returns kv.2) ∧
  (at_ m key = Throws_out_of_range ↔ key ∉ keys m) ∧
  (key ∉ keys m → find m key = Returns (end_ m)) ∧
  (∀ (m0 : HashMap) key0 kv0 (elems : list (K * V)),
     no_throw (find m0 key0) ∧ no_throw (insert m0 kv0) ∧
     no_throw (erase m0 key0) ∧ no_throw (subscript m0 key0) ∧
     no_throw (HashMap_of elems)).
Proof.
  intros Hok. split_and!.
  - intros p kv Hp <-. by eapply at_present.
  - split; [|by apply at_absent].
    intros Ht Hin. destruct (key_present m key Hin) as (p & kv & Hp & <-).
    by rewrite (at_present m p kv Hok Hp) in Ht.
  - by apply find_absent.
  - intros m0 key0 kv0 elems. split_and!.
    + apply no_throw_find.
    + apply no_throw_insert.
    + apply no_throw_erase.
    + apply no_throw_subscript.
    + apply no_throw_insert_all.
Qed.

(** C10 — [operator[]] with a key that is stored changes nothing: the
    call returns the container it was given, and the reference is to the
    pair of that key. *)
Theorem subscript_present_unchanged m key :
  index_ok m → key ∈ keys m →
  ∃ it m' v, subscript m key = Returns (it, m') ∧ m' = m ∧
             size m' = size m ∧ bucket_count m' = bucket_count m ∧
             value_store_ m' = value_store_ m ∧
             hashed_pointers_ m' = hashed_pointers_ m ∧
             vec_at (value_store_ m') it = Returns (key, v).
Proof.
  intros Hok Hin. destruct (key_present m key Hin) as (p & [k v] & Hp & Hk).
  simpl in Hk. subst k. exists (Z.of_nat p), m, v.
  split_and!; [by apply (subscript_present m p (key, v))|done..|].
  by apply vec_at_nat.
Qed.

(** C3 — Load factor.  From a container below the load factor 2/3,
    [insert] returns a container below it again, after at most one
    doubling of the bucket count, and one that is unchanged unless a
    pair was added; so do [operator[]] and the constructors, which insert.
    [erase] and an [insert] of a stored key do not touch the bucket count.
    The bucket count decreases under none of them: only [clear] sets it
    back to 1. *)
Theorem load_factor_bound m :
  load_ok m → bucket_count m * INCREMENT_FACTOR_ < 2 ^ 64 →
  (∀ kv m', insert m kv = Returns m' →
     load_ok m' ∧ bucket_count m ≤ bucket_count m' ∧
     (m' = m ∨
      size m' = size m + 1 ∧
      (bucket_count m' = bucket_count m ∨
       bucket_count m' = bucket_count m * INCREMENT_FACTOR_))) ∧
  (∀ kv, index_ok m → kv.1 ∈ keys m → insert m kv = Returns m) ∧
  (∀ key m', erase m key = Returns m' →
     load_ok m' ∧ bucket_count m' = bucket_count m) ∧
  (∀ key it m', subscript m key = Returns (it, m') →
     load_ok m' ∧ bucket_count m ≤ bucket_count m') ∧
  (load_ok (clear m) ∧ bucket_count (clear m) = 1) ∧
  (∀ (elems : list (K * V)) m',
     REALLOCATION_FACTOR_ * vec_size elems * INCREMENT_FACTOR_ < 2 ^ 64 →
     HashMap_of elems = Returns m' → load_ok m') ∧
  (∀ kv, Inv m → can_double m → ∃ m', insert m kv = Returns m').
Proof.
  intros Hl Hr.
  assert (0 ≤ size m) by (unfold size, vec_size; lia).
  assert (∀ kv m', insert m kv = Returns m' →
     load_ok m' ∧ bucket_count m ≤ bucket_count m' ∧
     (m' = m ∨
      size m' = size m + 1 ∧
      (bucket_count m' = bucket_count m ∨
       bucket_count m' = bucket_count m * INCREMENT_FACTOR_))) as Hins.
  { intros kv m' Hi. destruct (insert_load m kv m' Hl Hr Hi) as [Hl' Hc].
    unfold load_ok, INCREMENT_FACTOR_, REALLOCATION_FACTOR_ in *.
    split; [done|]. split; [destruct Hc as [->|[_ [->|[-> _]]]]; lia|].
    destruct Hc as [->|[? [?|[? _]]]]; [by left|right..]; by auto. }
  split_and!.
  - done.
  - intros kv Hok Hin. by apply insert_present.
  - intros key m' [Hn Hs]%erase_load. split; [|done].
    unfold load_ok in *. rewrite Hn.
    unfold INCREMENT_FACTOR_, REALLOCATION_FACTOR_ in *. lia.
  - intros key it m' [->|Hi]%subscript_inserts; [split; [done|lia]|].
    destruct (Hins _ _ Hi) as (? & ? & _). done.
  - done.
  - done.
  - intros elems m' Hlen Hm.
    by apply (insert_all_load elems HashMap_new m') in Hm as [? _].
  - intros kv HInv Hd. destruct (insert_Inv m kv HInv Hd) as (m' & ? & _).
    by exists m'.
Qed.

(** X2 — Within the range of [int], an inserted pair is found again,
    whether or not the insert rehashed. *)
Theorem insert_then_find_in_range m K0 (V0 : V) :
  Inv m → can_double m → K0 ∉ keys m →
  ∃ m' it, insert m (K0, V0) = Returns m' ∧
           find m' K0 = Returns it ∧ it ≠ end_ m' ∧
           vec_at (value_store_ m') it = Returns (K0, V0).
Proof.
  intros HInv Hd Hni.
  destruct (insert_absent m (K0, V0) HInv Hd Hni) as (m' & Hi & Hvs & HInv' & _).
  assert (value_store_ m' !! length (value_store_ m) = Some (K0, V0)) as Hp.
  { by rewrite Hvs, lookup_app_r, Nat.sub_diag by lia. }
  exists m', (Z.of_nat (length (value_store_ m))).
  split_and!; [done| | |by apply vec_at_nat].
  - apply (find_present m' K0 _ (K0, V0)); [apply HInv'|done|done].
  - pose proof (position_lt_size m' _ _ Hp). unfold end_. lia.
Qed.

(** X3 — Within the range of [int], [operator[]] with a key that is not
    stored inserts it with [ValueType()], as [insert] does, and refers to
    the new pair. *)
Theorem subscript_absent_in_range m key :
  Inv m → can_double m → key ∉ keys m →
  ∃ it m', subscript m key = Returns (it, m') ∧
           insert m (key, inhabitant) = Returns m' ∧
           size m' = size m + 1 ∧
           vec_at (value_store_ m') it = Returns (key, inhabitant).
Proof.
  intros HInv Hd Hni.
  destruct (subscript_absent m key HInv Hd Hni) as (m' & Hi & Hs & Hvs & _).
  exists (size m), m'. split_and!; [done|done| |].
  - unfold size, vec_size. rewrite Hvs, length_app. simpl. lia.
  - apply vec_at_Returns. unfold size, vec_size. rewrite Nat2Z.id.
    split; [lia|]. by rewrite Hvs, lookup_app_r, Nat.sub_diag by lia.
Qed.

End Facts.

(** ** Scenarios *)

Lemma abc_map_built : HashMap_of hash_int abc = Returns abc_map.
Proof. vm_compute. reflexivity. Qed.

Lemma abc_map_Inv : Inv hash_int abc_map.
Proof.
  apply (Inv_HashMap_of hash_int abc); [by vm_compute|apply abc_map_built].
Qed.

(** C4 — The rehash scenario.  Starting from an empty container, which
    has one bucket, the inserts of (1, "a"), (2, "b") and (3, "c") each
    double the bucket count: 2 buckets after the first, 4 after the
    second, 8 after the third, and the final size is 3.  This holds for
    every hash function. *)
Theorem rehash_scenario (hasher : Z → Z) :
  ∃ m1 m2 m3 : HashMap Z string,
    bucket_count (@HashMap_new Z string) = 1 ∧
    insert hasher HashMap_new (1, "a") = Returns m1 ∧
    insert hasher m1 (2, "b") = Returns m2 ∧
    insert hasher m2 (3, "c") = Returns m3 ∧
    bucket_count m1 = 2 ∧ bucket_count m2 = 4 ∧ bucket_count m3 = 8 ∧
    size m3 = 3.
Proof.
  destruct (insert_absent hasher HashMap_new (1, "a"))
    as (m1 & H1 & Hvs1 & HInv1 & Hc1);
    [apply Inv_new|by vm_compute|by intros ?%elem_of_nil|].
  assert (bucket_count m1 = 2) as Hn1.
  { destruct Hc1 as [[Hc _]|[_ ->]]; [by vm_compute in Hc|done]. }
  simpl in Hvs1.
  destruct (insert_absent hasher m1 (2, "b")) as (m2 & H2 & Hvs2 & HInv2 & Hc2);
    [done|by unfold can_double; rewrite Hn1| |].
  { unfold keys. rewrite Hvs1. simpl. by intros [=]%list_elem_of_singleton. }
  assert (bucket_count m2 = 4) as Hn2.
  { unfold size in Hc2. rewrite Hvs1, Hn1 in Hc2.
    destruct Hc2 as [[Hc _]|[_ ->]]; [by vm_compute in Hc|done]. }
  rewrite Hvs1 in Hvs2. simpl in Hvs2.
  destruct (insert_absent hasher m2 (3, "c")) as (m3 & H3 & Hvs3 & HInv3 & Hc3);
    [done|by unfold can_double; rewrite Hn2| |].
  { unfold keys. rewrite Hvs2. simpl.
    intros [[=]|[=]%list_elem_of_singleton]%elem_of_cons. }
  assert (bucket_count m3 = 8) as Hn3.
  { unfold size in Hc3. rewrite Hvs2, Hn2 in Hc3.
    destruct Hc3 as [[Hc _]|[_ ->]]; [by vm_compute in Hc|done]. }
  exists m1, m2, m3. split_and!; [done..|].
  unfold size. by rewrite Hvs3, Hvs2.
Qed.

(** The scenario as the specification words it (2 buckets after the
    second insert, 4 after the third) is not what the table does. *)
Lemma rehash_scenario_as_worded_fails :
  ¬ ∃ m1 m2 m3 : HashMap Z string,
      insert hash_int HashMap_new (1, "a") = Returns m1 ∧
      insert hash_int m1 (2, "b") = Returns m2 ∧
      insert hash_int m2 (3, "c") = Returns m3 ∧
      bucket_count m2 = 2 ∧ bucket_count m3 = 4 ∧ size m3 = 3.
Proof.
  intros (m1 & m2 & m3 & H1 & H2 & _ & Hn2 & _).
  vm_compute in H1. injection H1 as <-.
  vm_compute in H2. injection H2 as <-.
  vm_compute in Hn2. discriminate.
Qed.

(** [clear] on a container of two buckets leaves one bucket. *)
Lemma clear_shrinks_bucket_count :
  ∃ m : HashMap Z string,
    HashMap_of hash_int [(1, "a")] = Returns m ∧
    bucket_count (clear m) < bucket_count m.
Proof. eexists. split; [vm_compute; reflexivity|by vm_compute]. Qed.

Lemma erase_swap_compaction_witness :
  ∃ m', erase hash_int abc_map 2 = Returns m' ∧
        value_store_ m' = [(1, "a"); (3, "c")] ∧
        size m' = 2 ∧ find hash_int m' 3 = Returns 1.
Proof.
  destruct (erase_swap_compaction hash_int abc_map) as [_ Hsc];
    [apply abc_map_Inv|by vm_compute|].
  exact (Hsc (1, "a") (2, "b") (3, "c") eq_refl).
Defined.

Lemma load_factor_bound_witness :
  load_ok (clear abc_map) ∧ bucket_count (clear abc_map) = 1 ∧
  ∀ m', insert hash_int abc_map (4, "d") = Returns m' →
        load_ok m' ∧ bucket_count abc_map ≤ bucket_count m'.
Proof.
  destruct (load_factor_bound hash_int abc_map) as (Hi & _ & _ & _ & Hc & _);
    [by vm_compute|by vm_compute|].
  split; [apply Hc|]. split; [apply Hc|].
  intros m' Hm. destruct (Hi _ _ Hm) as (? & ? & _). by split.
Defined.

Lemma erase_completeness_witness :
  ∃ m', erase hash_int abc_map 2 = Returns m' ∧ index_ok hash_int m' ∧
        find hash_int m' 2 = Returns (end_ m') ∧
        (2 ∈ keys abc_map → size m' = size abc_map - 1) ∧
        (2 ∉ keys abc_map → m' = abc_map).
Proof.
  apply (erase_completeness hash_int abc_map 2);
    [apply abc_map_Inv|by vm_compute].
Defined.

Lemma insert_first_wins_witness :
  ∃ m', insert hash_int abc_map (2, "z") = Returns m' ∧ m' = abc_map ∧
        at_ hash_int m' 2 = Returns "b" ∧ size m' = size abc_map ∧
        hashed_pointers_ m' = hashed_pointers_ abc_map.
Proof.
  apply (insert_first_wins hash_int abc_map 1 2 "b" "z");
    [apply abc_map_Inv|reflexivity].
Defined.

Lemma at_contract_witness :
  at_ hash_int abc_map 2 = Returns "b" ∧
  (at_ hash_int abc_map 9 = Throws_out_of_range ↔ 9 ∉ keys abc_map).
Proof.
  split.
  - destruct (at_contract hash_int abc_map 2) as (Hat & _);
      [apply abc_map_Inv|].
    exact (Hat 1%nat (2, "b") eq_refl eq_refl).
  - destruct (at_contract hash_int abc_map 9) as (_ & Hthrow & _);
      [apply abc_map_Inv|].
    exact Hthrow.
Defined.

Lemma subscript_present_unchanged_witness :
  ∃ it m' v, subscript hash_int abc_map 3 = Returns (it, m') ∧
             m' = abc_map ∧ size m' = size abc_map ∧
             bucket_count m' = bucket_count abc_map ∧
             value_store_ m' = value_store_ abc_map ∧
             hashed_pointers_ m' = hashed_pointers_ abc_map ∧
             vec_at (value_store_ m') it = Returns (3, v).
Proof.
  apply (subscript_present_unchanged hash_int abc_map 3);
    [apply abc_map_Inv|].
  apply list_elem_of_lookup. by exists 2%nat.
Defined.

(** ** A table beyond the range of [int] *)

Lemma wide_key_range (p : Z) : 0 ≤ p < 2 ^ 32 → 0 ≤ wide_key p < 2 ^ 33.
Proof. intros Hp. unfold wide_key. case_decide; lia. Qed.

Lemma wide_key_inj (p q : Z) :
  0 ≤ p → 0 ≤ q → wide_key p = wide_key q → p = q.
Proof. unfold wide_key. intros Hp Hq. repeat case_decide; lia. Qed.

Lemma wide_bucket_for (n p : Z) :
  0 ≤ p < 2 ^ 32 → bucket_for hash_int n (wide_key p) = wide_key p mod n.
Proof.
  intros Hp. pose proof (wide_key_range p Hp).
  unfold bucket_for, hash_int. by rewrite to_size_t_id by lia.
Qed.

(** A key below [2^31] goes through [int cur_position] unchanged, however
    many buckets there are. *)
Lemma wide_key_exact_low (n p : Z) :
  1 ≤ n → 0 ≤ p < 2 ^ 31 →
  rehash_bucket hash_int n (wide_key p) = bucket_for hash_int n (wide_key p).
Proof.
  intros Hn Hp. unfold rehash_bucket. rewrite wide_bucket_for by lia.
  unfold wide_key. rewrite decide_True by lia.
  pose proof (Z.mod_pos_bound p n ltac:(lia)).
  assert (p mod n ≤ p) by (apply Z.mod_le; lia).
  rewrite to_int_id by lia. apply to_size_t_id. lia.
Qed.

(** With [2^33] buckets a key from [2^32] on loses its bit 32. *)
Lemma wide_rehash_bucket_33 (p : Z) :
  0 ≤ p < 2 ^ 32 →
  bucket_for hash_int (2 ^ 33) (wide_key p) = wide_key p ∧
  rehash_bucket hash_int (2 ^ 33) (wide_key p)
  = if decide (p < 2 ^ 31) then p else p - 2 ^ 31.
Proof.
  intros Hp. pose proof (wide_key_range p Hp) as Hr.
  assert (bucket_for hash_int (2 ^ 33) (wide_key p) = wide_key p) as Hb.
  { rewrite wide_bucket_for by done. apply Z.mod_small. lia. }
  split; [done|]. unfold rehash_bucket. rewrite Hb.
  unfold wide_key in *. case_decide.
  - rewrite to_int_id by lia. apply to_size_t_id. lia.
  - unfold to_int.
    replace (p + 2 ^ 31 + 2 ^ 31) with (p + 1 * 2 ^ 32) by lia.
    rewrite Z.mod_add by lia. rewrite (Z.mod_small p) by lia.
    apply to_size_t_id. lia.
Qed.

Lemma wide_elems_lookup (k : Z) (p : nat) (kv : Z * string) :
  wide_elems k !! p = Some kv ↔
  Z.of_nat p < k ∧ kv = (wide_key (Z.of_nat p), EmptyString).
Proof.
  unfold wide_elems. rewrite list_lookup_fmap_Some.
  setoid_rewrite lookup_seqZ. split.
  - intros (i & -> & -> & Hi). by rewrite Z.add_0_l.
  - intros [Hp ->]. exists (Z.of_nat p). by rewrite Z.add_0_l.
Qed.

Lemma wide_elems_elem (k : Z) (kv : Z * string) :
  kv ∈ wide_elems k → ∃ p, 0 ≤ p < k ∧ kv = (wide_key p, EmptyString).
Proof.
  intros (p & Hp)%list_elem_of_lookup.
  apply wide_elems_lookup in Hp as [Hp ->]. exists (Z.of_nat p). split; [lia|done].
Qed.

Lemma wide_elems_length (k : Z) : 0 ≤ k → vec_size (wide_elems k) = k.
Proof.
  intros Hk. unfold vec_size, wide_elems.
  rewrite length_fmap, length_seqZ. lia.
Qed.

Lemma wide_elems_snoc (k : Z) :
  0 ≤ k → wide_elems (k + 1) = wide_elems k ++ [(wide_key k, EmptyString)].
Proof.
  intros Hk. unfold wide_elems. rewrite seqZ_app, fmap_app by lia.
  rewrite Z.add_0_l. by rewrite (seqZ_cons k 1), (seqZ_nil (Z.succ k)) by lia.
Qed.

Lemma wide_key_fresh (k : Z) : 0 ≤ k → wide_key k ∉ (wide_elems k).*1.
Proof.
  intros Hk (kv & Heq & (p & Hp & ->)%wide_elems_elem)%list_elem_of_fmap.
  simpl in Heq. apply wide_key_inj in Heq; lia.
Qed.

Lemma insert_all_app {K V : Type} `{EqDecision K} (hasher : K → Z)
    (m : HashMap K V) (elems1 elems2 : list (K * V)) :
  insert_all hasher m (elems1 ++ elems2)
  = insert_all hasher m elems1 ≫= λ m', insert_all hasher m' elems2.
Proof.
  revert m. induction elems1 as [|elem elems1 IH]; intros m; simpl; [done|].
  destruct (insert hasher m elem) as [m1| |]; simpl; [apply IH|done|done].
Qed.

(** The inserts of the first [k] keys return a well-formed table, whose
    bucket count is the power of two that the doublings have reached: up
    to [2^32] buckets no key met the conversion to [int] with bit 31 set. *)
Lemma wide_reachable (k : nat) :
  Z.of_nat k ≤ wide_count →
  ∃ (m : HashMap Z string) (j : Z),
    HashMap_of hash_int (wide_elems (Z.of_nat k)) = Returns m ∧
    value_store_ m = wide_elems (Z.of_nat k) ∧
    index_ok hash_int m ∧ load_ok m ∧
    bucket_count m = 2 ^ j ∧ 0 ≤ j ≤ 32 ∧ (j = 0 ∨ 2 ^ j ≤ 3 * Z.of_nat k).
Proof.
  unfold HashMap_of, wide_count. induction k as [|k IH]; intros Hk.
  - exists HashMap_new, 0.
    split; [done|]. split; [done|]. split; [apply Inv_new|].
    split; [apply (Inv_new hash_int)|]. split; [done|]. split; [lia|by left].
  - destruct IH as (m & j & Hm & Hvs & Hok & Hl & Hn & Hj & Hgrown); [lia|].
    pose proof (Z.pow_pos_nonneg 2 j) as Hpos.
    assert (size m = Z.of_nat k) as Hs
      by (unfold size; rewrite Hvs; apply wide_elems_length; lia).
    assert (2 ^ j ≤ 2 ^ 32) by (apply Z.pow_le_mono_r; lia).
    unfold load_ok, INCREMENT_FACTOR_, REALLOCATION_FACTOR_ in Hl.
    rewrite Hs, Hn in Hl.
    destruct (insert_exact hash_int m (wide_key (Z.of_nat k), EmptyString))
      as (m' & Hi & Hvs' & Hok' & Hl' & Hn').
    + done.
    + unfold load_ok, INCREMENT_FACTOR_, REALLOCATION_FACTOR_. rewrite Hs, Hn. lia.
    + unfold keys. rewrite Hvs. apply wide_key_fresh. lia.
    + unfold INCREMENT_FACTOR_. lia.
    + unfold INCREMENT_FACTOR_, REALLOCATION_FACTOR_. rewrite Hs, Hn, Hvs.
      intros Htrig. rewrite <-wide_elems_snoc by lia.
      apply Forall_forall. intros kv (p & Hp & ->)%wide_elems_elem. simpl.
      assert (j < 32) by (destruct (decide (j = 32)) as [->|]; lia).
      destruct (decide (j = 31)) as [->|].
      * apply wide_key_exact_low; lia.
      * apply rehash_bucket_exact. unfold int_range.
        assert (2 ^ j * 2 = 2 ^ (j + 1)) as -> by (rewrite Z.pow_add_r; lia).
        split; [lia|]. apply Z.pow_le_mono_r; lia.
    + rewrite Nat2Z.inj_succ, <-Z.add_1_r.
      rewrite wide_elems_snoc, insert_all_app, Hm by lia.
      rewrite bind_Returns_l. simpl insert_all. rewrite Hi, bind_Returns_l.
      unfold INCREMENT_FACTOR_, REALLOCATION_FACTOR_ in Hn'.
      rewrite Hs, Hn in Hn'. rewrite Hvs in Hvs'.
      case_decide as Htrig.
      * exists m', (j + 1). rewrite Z.pow_add_r by lia.
        assert (j < 32) by (destruct (decide (j = 32)) as [->|]; lia).
        split; [done|]. split; [done|]. split; [done|]. split; [done|].
        split; [lia|]. split; [lia|right; lia].
      * exists m', j.
        split; [done|]. split; [done|]. split; [done|]. split; [done|].
        split; [done|]. split; [lia|lia].
Qed.

(** The table built by the first [wide_count] inserts has [2^32]
    buckets. *)
Lemma wide_table :
  ∃ m : HashMap Z string,
    HashMap_of hash_int (wide_elems wide_count) = Returns m ∧
    value_store_ m = wide_elems wide_count ∧
    index_ok hash_int m ∧ load_ok m ∧ bucket_count m = 2 ^ 32.
Proof.
  destruct (wide_reachable (Z.to_nat wide_count))
    as (m & j & Hm & Hvs & Hok & Hl & Hn & Hj & _); [unfold wide_count; lia|].
  rewrite Z2Nat.id in Hm, Hvs by (unfold wide_count; lia).
  exists m. split; [exact Hm|]. split; [exact Hvs|].
  split; [exact Hok|]. split; [exact Hl|].
  assert (size m = wide_count) as Hs.
  { unfold size. rewrite Hvs. apply wide_elems_length. unfold wide_count. lia. }
  unfold load_ok, INCREMENT_FACTOR_, REALLOCATION_FACTOR_ in Hl.
  rewrite Hs, Hn in Hl. unfold wide_count in Hl.
  assert (j = 32) as ->; [|exact Hn].
  destruct (decide (j ≤ 31)) as [Hle|]; [|lia].
  pose proof (Z.pow_le_mono_r 2 j 31). lia.
Qed.

(** The next insert rehashes to [2^33] buckets and files the position of
    the new key, [2^32 + 715827882], under bucket 715827882. *)
Lemma wide_insert_misfiles (m : HashMap Z string) :
  value_store_ m = wide_elems wide_count →
  index_ok hash_int m → bucket_count m = 2 ^ 32 →
  (wide_key wide_count ∉ keys m) ∧
  ∃ m', insert hash_int m (wide_key wide_count, EmptyString) = Returns m' ∧
        find hash_int m' (wide_key wide_count) = Returns (end_ m') ∧
        ¬ bucket_index_invariant hash_int m'.
Proof.
  intros Hvs Hok Hn.
  assert (size m = wide_count) as Hs.
  { unfold size. rewrite Hvs. apply wide_elems_length. unfold wide_count. lia. }
  assert (wide_key wide_count ∉ keys m) as Hfresh.
  { unfold keys. rewrite Hvs. apply wide_key_fresh. unfold wide_count. lia. }
  split; [exact Hfresh|].
  apply (insert_misfiles hash_int m (wide_key wide_count, EmptyString));
    rewrite ?Hn, ?Hs; unfold INCREMENT_FACTOR_, REALLOCATION_FACTOR_, wide_count;
    try lia.
  - exact Hok.
  - exact Hfresh.
  - rewrite Hvs. change (2 ^ 32 * 2) with (2 ^ 33).
    fold wide_count. rewrite <-wide_elems_snoc by (unfold wide_count; lia).
    apply Forall_forall. intros kv (p & Hp & ->)%wide_elems_elem. simpl.
    unfold wide_count in Hp.
    destruct (wide_rehash_bucket_33 p) as [_ ->]; [lia|]. case_decide; lia.
  - simpl. change (2 ^ 32 * 2) with (2 ^ 33).
    destruct (wide_rehash_bucket_33 2863311530) as [-> ->]; [lia|].
    by vm_compute.
Qed.

(** C1 — Bucket-index invariant, broken by the rehash beyond the range of
    [int].  The table built by inserting [wide_count] keys is well formed
    and has [2^32] buckets; [insert] of one more key returns a table in
    which a live position is not in the bucket of its key, because the
    rehash loop takes the bucket number through [int cur_position]. *)
Theorem insert_breaks_bucket_index :
  ∃ m m' : HashMap Z string,
    HashMap_of hash_int (wide_elems wide_count) = Returns m ∧
    index_ok hash_int m ∧ load_ok m ∧ bucket_index_invariant hash_int m ∧
    insert hash_int m (wide_key wide_count, EmptyString) = Returns m' ∧
    ¬ bucket_index_invariant hash_int m'.
Proof.
  destruct wide_table as (m & Hm & Hvs & Hok & Hl & Hn).
  destruct (wide_insert_misfiles m Hvs Hok Hn) as (_ & m' & Hi & _ & Hb).
  exists m, m'. split; [exact Hm|]. split; [exact Hok|]. split; [exact Hl|].
  split; [apply index_ok_bucket_index; exact Hok|].
  split; [exact Hi|exact Hb].
Qed.

(** C5 — Insert, then find, beyond the range of [int].  The key is not
    in the table; [insert] returns, and [find] of the key on the table
    returned gives [end()]. *)
Theorem insert_then_find_misses :
  ∃ m m' : HashMap Z string,
    HashMap_of hash_int (wide_elems wide_count) = Returns m ∧
    index_ok hash_int m ∧ (wide_key wide_count ∉ keys m) ∧
    insert hash_int m (wide_key wide_count, EmptyString) = Returns m' ∧
    find hash_int m' (wide_key wide_count) = Returns (end_ m').
Proof.
  destruct wide_table as (m & Hm & Hvs & Hok & Hl & Hn).
  destruct (wide_insert_misfiles m Hvs Hok Hn) as (Hni & m' & Hi & Hf & _).
  exists m, m'. split; [exact Hm|]. split; [exact Hok|].
  split; [exact Hni|]. split; [exact Hi|exact Hf].
Qed.

(** C9 — [operator[]] with a key that is not stored, beyond the range of
    [int].  After its insert the key is not found, so the reference
    returned is [value_store_[size()]]: the call has no defined result. *)
Theorem subscript_absent_undefined :
  ∃ m : HashMap Z string,
    HashMap_of hash_int (wide_elems wide_count) = Returns m ∧
    index_ok hash_int m ∧ (wide_key wide_count ∉ keys m) ∧
    subscript hash_int m (wide_key wide_count) = Undefined.
Proof.
  destruct wide_table as (m & Hm & Hvs & Hok & Hl & Hn).
  destruct (wide_insert_misfiles m Hvs Hok Hn) as (Hni & m' & Hi & Hf & _).
  exists m. split; [exact Hm|]. split; [exact Hok|]. split; [exact Hni|].
  apply (subscript_misfiled hash_int m m' (wide_key wide_count)).
  - apply find_absent; [exact Hok|exact Hni].
  - exact Hi.
  - exact Hf.
Qed.

Lemma Inv_maintained_witness :
  ∃ m', insert hash_int abc_map (4, "d") = Returns m' ∧ Inv hash_int m' ∧
        bucket_index_invariant hash_int m'.
Proof.
  destruct (Inv_maintained hash_int abc_map abc_map_Inv) as (_ & Hins & _).
  apply Hins. by vm_compute.
Defined.

Lemma insert_then_find_in_range_witness :
  ∃ (m' : HashMap Z string) it,
    insert hash_int HashMap_new (1, "a") = Returns m' ∧
    find hash_int m' 1 = Returns it ∧ it ≠ end_ m' ∧
    vec_at (value_store_ m') it = Returns (1, "a").
Proof.
  apply (insert_then_find_in_range hash_int HashMap_new 1 "a");
    [apply Inv_new|by vm_compute|by intros ?%elem_of_nil].
Defined.

Lemma subscript_absent_in_range_witness :
  ∃ it m', subscript hash_int abc_map 7 = Returns (it, m') ∧
           insert hash_int abc_map (7, inhabitant) = Returns m' ∧
           size m' = size abc_map + 1 ∧
           vec_at (value_store_ m') it = Returns (7, inhabitant).
Proof.
  apply (subscript_absent_in_range hash_int abc_map 7);
    [apply abc_map_Inv|by vm_compute|].
  unfold keys. simpl. intros Hin. repeat (apply elem_of_cons in Hin as [?|Hin]; [done|]).
  by apply elem_of_nil in Hin.
Defined.

(** * Further properties of the member functions *)

Section Laws.
Context {K V : Type} `{EqDecision K} `{Inhabited V}.
Variable hasher_ : K → Z.

Local Abbreviation HashMap := (HashMap K V).
Local Abbreviation find := (find hasher_).
Local Abbreviation insert := (insert hasher_).
Local Abbreviation erase := (erase hasher_).
Local Abbreviation at_ := (at_ hasher_).
Local Abbreviation subscript := (subscript hasher_).
Local Abbreviation subscript_assign := (subscript_assign hasher_).
Local Abbreviation insert_all := (insert_all hasher_).
Local Abbreviation insert_range := (insert_range hasher_).
Local Abbreviation HashMap_range := (HashMap_range hasher_).
Local Abbreviation HashMap_of := (HashMap_of hasher_).
Local Abbreviation rehash_loop := (rehash_loop hasher_).
Local Abbreviation check_and_reallocate := (check_and_reallocate hasher_).
Local Abbreviation bucket_for := (bucket_for hasher_).
Local Abbreviation rehash_bucket := (rehash_bucket hasher_).
Local Abbreviation index_ok := (index_ok hasher_).
Local Abbreviation Inv := (Inv hasher_).

Implicit Types (m : HashMap) (key : K) (kv : K * V).

(** ** Lookup in any container *)

Lemma find_loop_sound m key bucket it :
  find_loop m key bucket = Returns it →
  it = end_ m ∨ ∃ kv, vec_at (value_store_ m) it = Returns kv ∧ kv.1 = key.
Proof.
  induction bucket as [|x bucket IH]; simpl; intros Hf.
  - left. by injection Hf.
  - apply bind_Returns in Hf as (kv & Hkv & Hf).
    case_decide; [|by apply IH]. injection Hf as <-. right. by exists kv.
Qed.

(** X4 — Whatever the container, well formed or not, an iterator that
    [find] returns is [end()] or designates a pair with the key looked
    for; in a well-formed container [find] returns, and returns [end()]
    exactly when the key is not stored. *)
Theorem find_sound_and_complete m key :
  (∀ it, find m key = Returns it →
     it = end_ m ∨
     ∃ kv, vec_at (value_store_ m) it = Returns kv ∧ kv.1 = key) ∧
  (index_ok m →
     ∃ it, find m key = Returns it ∧ 0 ≤ it ≤ size m ∧
           (it = end_ m ↔ key ∉ keys m)).
Proof.
  split.
  - intros it Hf. unfold find in Hf.
    apply bind_Returns in Hf as (h & _ & Hf).
    apply bind_Returns in Hf as (bucket & _ & Hf).
    by eapply find_loop_sound.
  - intros Hok. destruct (find_cases hasher_ m key Hok)
      as [[Hni Hf]|(p & kv & Hp & Hk & Hf & Hne)].
    + exists (size m). split; [done|].
      split; [unfold size, vec_size; lia|done].
    + exists (Z.of_nat p). split; [done|].
      pose proof (position_lt_size m p kv Hp).
      split; [lia|]. split; [done|]. intros Hni.
      by eapply key_absent in Hni.
Qed.

(** ** Lookup after a mutation *)

Lemma at_cases m key :
  index_ok m →
  ((key ∉ keys m) ∧ at_ m key = Throws_out_of_range)
  ∨ (∃ p kv, value_store_ m !! p = Some kv ∧ kv.1 = key ∧
             at_ m key = Returns kv.2).
Proof.
  intros Hok. destruct (decide (key ∈ keys m)) as [Hin|Hni].
  - right. destruct (key_present m key Hin) as (p & kv & Hp & <-).
    exists p, kv. split; [done|]. split; [done|]. by eapply at_present.
  - left. split; [done|]. by apply at_absent.
Qed.

(** In a well-formed container [at] depends on the pairs stored only. *)
Lemma at_store m m' key :
  index_ok m → index_ok m' → value_store_ m' = value_store_ m →
  at_ m' key = at_ m key.
Proof.
  intros Hok Hok' Hvs.
  destruct (at_cases m key Hok) as [[Hni ->]|(p & kv & Hp & <- & ->)].
  - apply at_absent; [done|]. unfold keys. by rewrite Hvs.
  - apply (at_present hasher_ m' p kv); [done|by rewrite Hvs].
Qed.

Lemma find_store m m' key :
  index_ok m → index_ok m' → value_store_ m' = value_store_ m →
  find m' key = find m key.
Proof.
  intros Hok Hok' Hvs.
  destruct (find_cases hasher_ m key Hok)
    as [[Hni ->]|(p & kv & Hp & Hk & -> & _)].
  - unfold size. rewrite <-Hvs. apply find_absent; [done|].
    unfold keys. by rewrite Hvs.
  - apply (find_present hasher_ m' _ p kv); [done|by rewrite Hvs|done].
Qed.

Lemma insert_at m kv :
  Inv m → can_double m →
  ∃ m', insert m kv = Returns m' ∧ Inv m' ∧
        value_store_ m' =
          (if decide (kv.1 ∈ keys m) then value_store_ m
           else value_store_ m ++ [kv]) ∧
        (∀ key, at_ m' key =
                  if decide (key = kv.1 ∧ kv.1 ∉ keys m) then Returns kv.2
                  else at_ m key).
Proof.
  intros HInv Hd. pose proof HInv as (Hok & _).
  destruct (decide (kv.1 ∈ keys m)) as [Hin|Hni].
  - exists m. split; [by apply insert_present|]. split; [done|].
    split; [done|].
    intros key. rewrite decide_False; [done|]. by intros [_ ?].
  - destruct (insert_absent hasher_ m kv HInv Hd Hni)
      as (m' & Hi & Hvs & HInv' & _).
    pose proof HInv' as (Hok' & _).
    exists m'. split; [done|]. split; [done|]. split; [done|].
    intros key. case_decide as Hk.
    + destruct Hk as [-> _].
      apply (at_present hasher_ m' (length (value_store_ m)) kv); [done|].
      by rewrite Hvs, lookup_app_r, Nat.sub_diag by lia.
    + destruct (at_cases m key Hok) as [[Hni' ->]|(p & kv' & Hp & <- & ->)].
      * apply at_absent; [done|]. unfold keys. rewrite Hvs, fmap_app.
        intros [Hin|Hin%list_elem_of_singleton]%elem_of_app; [done|].
        simpl in Hin. by apply Hk.
      * apply (at_present hasher_ m' p kv'); [done|].
        rewrite Hvs. by apply lookup_app_l_Some.
Qed.

(** X5 — [insert] in a well-formed container, within the range of
    [int]: the pair is appended to the pairs stored unless its key is
    stored, and nothing else changes there.  Afterwards [at] gives the
    value inserted for the key inserted if that key was not stored, and
    what it gave before for every other key and for a key that was
    stored; every pair stored before is found at the position it had,
    whether or not the insert rehashed. *)
Theorem insert_lookup m kv :
  Inv m → can_double m →
  ∃ m', insert m kv = Returns m' ∧ Inv m' ∧
        value_store_ m' =
          (if decide (kv.1 ∈ keys m) then value_store_ m
           else value_store_ m ++ [kv]) ∧
        (∀ key, at_ m' key =
                  if decide (key = kv.1 ∧ kv.1 ∉ keys m) then Returns kv.2
                  else at_ m key) ∧
        (∀ p kv', value_store_ m !! p = Some kv' →
                  find m' kv'.1 = Returns (Z.of_nat p) ∧
                  value_store_ m' !! p = Some kv').
Proof.
  intros HInv Hd.
  destruct (insert_at m kv HInv Hd) as (m' & Hi & HInv' & Hvs & Hat).
  exists m'. split; [done|]. split; [done|]. split; [done|]. split; [done|].
  intros p kv' Hp.
  assert (value_store_ m' !! p = Some kv') as Hp'.
  { rewrite Hvs. case_decide; [done|]. by apply lookup_app_l_Some. }
  split; [|done]. apply (find_present hasher_ m' _ p kv'); [apply HInv'|done|done].
Qed.

(** The pairs left by [erase] are pairs that were stored. *)
Lemma erase_store_sub (vs : list (K * V)) p0 kv0 last_kv p kv :
  last vs = Some last_kv →
  pop_back (set_back (<[p0 := last_kv]> vs) kv0) !! p = Some kv →
  kv ∈ vs.
Proof.
  intros Hlast. rewrite erase_store_lookup. intros Hp.
  repeat case_decide; simplify_eq.
  - rewrite last_lookup in Hlast. by eapply list_elem_of_lookup_2.
  - by eapply list_elem_of_lookup_2.
Qed.

Lemma erase_at m key :
  index_ok m → size m < 2 ^ 64 →
  ∃ m', erase m key = Returns m' ∧ index_ok m' ∧
        (∀ key', at_ m' key' =
                   if decide (key' = key) then Throws_out_of_range
                   else at_ m key').
Proof.
  intros Hok Hs. destruct (decide (key ∈ keys m)) as [Hin|Hni].
  - destruct (key_present m key Hin) as (p0 & kv0 & Hp0 & Hk).
    destruct (erase_present hasher_ m key p0 kv0 Hok Hs Hp0 Hk)
      as (m' & last_kv & Hlast & He & Hvs & _ & Hok').
    assert (key ∉ keys m') as Hgone.
    { unfold keys. rewrite Hvs. subst key.
      apply erase_key_gone; [apply Hok|done|done]. }
    exists m'. split; [done|]. split; [done|].
    intros key'. case_decide as Hk'.
    { subst key'. by apply at_absent. }
    { destruct (at_cases m key' Hok) as [[Hni' ->]|(p & kv & Hp & <- & ->)].
      - apply at_absent; [done|]. unfold keys. rewrite Hvs.
        intros (kv & -> & (q & Hq)%list_elem_of_lookup)%list_elem_of_fmap.
        apply Hni'. apply list_elem_of_fmap. exists kv. split; [done|].
        by eapply erase_store_sub.
      - pose proof (lookup_lt_Some _ _ _ Hp) as Hlt.
        assert (p ≠ p0) as Hne by (intros ->; simplify_eq; done).
        destruct (decide (p = length (value_store_ m) - 1)%nat) as [->|Hnl].
        + assert (kv = last_kv) as ->.
          { rewrite last_lookup in Hlast.
            replace (pred (length (value_store_ m)))
              with (length (value_store_ m) - 1)%nat in Hlast by lia.
            congruence. }
          apply (at_present hasher_ m' p0 last_kv); [done|].
          rewrite Hvs, erase_store_lookup.
          pose proof (lookup_lt_Some _ _ _ Hp0).
          rewrite decide_True by lia. by rewrite decide_True.
        + apply (at_present hasher_ m' p kv); [done|].
          rewrite Hvs, erase_store_lookup.
          rewrite decide_True by lia. by rewrite decide_False. }
  - exists m. rewrite erase_absent by done.
    split; [done|]. split; [done|].
    intros key'. case_decide as Hk'; [|done]. subst key'. by apply at_absent.
Qed.

(** X6 — [erase] in a well-formed container: afterwards [at] throws
    for the key erased and gives what it gave before for every other key,
    although a pair may have moved; a second [erase] of the same key
    changes nothing. *)
Theorem erase_lookup m key :
  index_ok m → size m < 2 ^ 64 →
  ∃ m', erase m key = Returns m' ∧ index_ok m' ∧
        (∀ key', at_ m' key' =
                   if decide (key' = key) then Throws_out_of_range
                   else at_ m key') ∧
        erase m' key = Returns m'.
Proof.
  intros Hok Hs. destruct (erase_at m key Hok Hs) as (m' & He & Hok' & Hat).
  exists m'. split; [done|]. split; [done|]. split; [done|].
  apply erase_absent; [done|]. intros Hin.
  destruct (key_present m' key Hin) as (p & kv & Hp & <-).
  pose proof (Hat kv.1) as Hthrow. rewrite decide_True in Hthrow by done.
  by rewrite (at_present hasher_ m' p kv Hok' Hp) in Hthrow.
Qed.

(** X7 — [insert] of a key that is not stored, then [erase] of that key:
    the pairs stored are those stored before, at the same positions, so
    [find] and [at] answer as before; the bucket count is the same or,
    if the insert rehashed, twice as large. *)
Theorem insert_then_erase m kv :
  Inv m → can_double m → kv.1 ∉ keys m →
  ∃ m' m'', insert m kv = Returns m' ∧ erase m' kv.1 = Returns m'' ∧
            value_store_ m'' = value_store_ m ∧ Inv m'' ∧
            (∀ key, find m'' key = find m key ∧ at_ m'' key = at_ m key) ∧
            (bucket_count m'' = bucket_count m ∨
             bucket_count m'' = bucket_count m * INCREMENT_FACTOR_).
Proof.
  intros HInv Hd Hni. pose proof HInv as (Hok & Hl & Hr).
  destruct (insert_absent hasher_ m kv HInv Hd Hni)
    as (m' & Hi & Hvs & HInv' & Hc).
  pose proof HInv' as (Hok' & Hl' & Hr').
  pose proof (Inv_size_bound hasher_ m' HInv') as Hsz'.
  assert (value_store_ m' !! length (value_store_ m) = Some kv) as Hp.
  { by rewrite Hvs, lookup_app_r, Nat.sub_diag by lia. }
  destruct (erase_present hasher_ m' kv.1 (length (value_store_ m)) kv Hok') as
    (m'' & last_kv & Hlast & He & Hvs'' & Hn'' & Hok''); [unfold int_range in *; lia|done|done|].
  assert (value_store_ m'' = value_store_ m) as Hsame.
  { rewrite Hvs''. apply list_eq. intros p. rewrite erase_store_lookup.
    rewrite Hvs, length_app. simpl.
    case_decide as Hlt.
    - rewrite decide_False by lia. by rewrite lookup_app_l by lia.
    - symmetry. apply lookup_ge_None_2. lia. }
  assert (bucket_count m'' = bucket_count m ∨
          bucket_count m'' = bucket_count m * INCREMENT_FACTOR_) as Hbc.
  { rewrite Hn''. destruct Hc as [[_ Hhp]|[_ ->]]; [left|by right].
    unfold bucket_count, vec_size. by rewrite Hhp, length_insert. }
  assert (Inv m'') as HInv''.
  { split; [done|]. split.
    - pose proof Hok as (Hn & _). unfold load_ok, size in *. rewrite Hsame.
      unfold INCREMENT_FACTOR_, REALLOCATION_FACTOR_ in *.
      destruct Hbc as [->| ->]; lia.
    - by rewrite Hn''. }
  exists m', m''. split; [done|]. split; [done|]. split; [done|].
  split; [done|]. split; [|done].
  intros key. split; [by apply find_store|by apply at_store].
Qed.

(** ** The constructors *)

Lemma grown_new : grown (@HashMap_new K V).
Proof. exists 0. split; [done|]. split; [done|by left]. Qed.

Lemma grown_can_double m :
  grown m →
  REALLOCATION_FACTOR_ * (size m + 1) * INCREMENT_FACTOR_ ≤ int_range →
  can_double m.
Proof.
  unfold can_double, int_range, INCREMENT_FACTOR_, REALLOCATION_FACTOR_.
  intros (j & Hj & Hn & [->|Hg]) Hb; rewrite Hn.
  - assert (0 ≤ size m) by (unfold size, vec_size; lia). simpl. lia.
  - unfold REALLOCATION_FACTOR_ in Hg. lia.
Qed.

Lemma insert_grown m kv m' :
  load_ok m → bucket_count m * INCREMENT_FACTOR_ < 2 ^ 64 → grown m →
  insert m kv = Returns m' → grown m'.
Proof.
  intros Hl Hr (j & Hj & Hn & Hg) Hi.
  destruct (insert_load hasher_ m kv m' Hl Hr Hi) as [_ [->|[Hs Hc]]].
  { by exists j. }
  unfold grown, INCREMENT_FACTOR_, REALLOCATION_FACTOR_ in *.
  destruct Hc as [Hn'|[Hn' Htrig]].
  - exists j. rewrite Hn', Hs. split; [done|]. split; [done|].
    destruct Hg as [->|Hg]; [by left|right; lia].
  - exists (j + 1). rewrite Hn', Hn, Z.pow_add_r by lia.
    split; [lia|]. split; [done|]. right. rewrite Hn in Htrig. lia.
Qed.

Lemma first_wins_cons (vs elems : list (K * V)) kv :
  first_wins vs (kv :: elems)
  = first_wins (if decide (kv.1 ∈ vs.*1) then vs else vs ++ [kv]) elems.
Proof. reflexivity. Qed.

Lemma first_value_cons (elems : list (K * V)) kv key :
  first_value key (kv :: elems)
  = if decide (kv.1 = key) then Returns kv.2 else first_value key elems.
Proof.
  unfold first_value. simpl. case_decide; [done|].
  by destruct (list_find _ elems) as [[i kv']|].
Qed.

(** What a sequence of inserts leaves: the pairs that [first_wins]
    keeps, in a table that has grown by doubling; [at] answers as for the
    table before if the key was stored there, and with the first pair of
    the sequence that has the key otherwise. *)
Lemma insert_all_store (elems : list (K * V)) m :
  Inv m → grown m →
  REALLOCATION_FACTOR_ * (size m + vec_size elems) * INCREMENT_FACTOR_
    ≤ int_range →
  ∃ m', insert_all m elems = Returns m' ∧ Inv m' ∧ grown m' ∧
        value_store_ m' = first_wins (value_store_ m) elems ∧
        ∀ key, at_ m' key = if decide (key ∈ keys m) then at_ m key
                            else first_value key elems.
Proof.
  revert m. induction elems as [|kv elems IH]; intros m HInv Hg Hb.
  { exists m. split; [done|]. split; [done|]. split; [done|]. split; [done|].
    intros key. case_decide; [done|]. apply at_absent; [apply HInv|done]. }
  unfold vec_size in Hb. simpl length in Hb.
  assert (0 ≤ size m) by (unfold size, vec_size; lia).
  assert (can_double m) as Hd.
  { apply grown_can_double; [done|].
    unfold INCREMENT_FACTOR_, REALLOCATION_FACTOR_ in *. lia. }
  pose proof HInv as (Hok & Hl & Hr).
  destruct (insert_at m kv HInv Hd) as (m1 & Hi & HInv1 & Hvs1 & Hat1).
  assert (size m1 ≤ size m + 1) as Hs1.
  { unfold size. rewrite Hvs1. case_decide; [lia|].
    unfold vec_size. rewrite length_app. simpl. lia. }
  destruct (IH m1) as (m' & Hm' & HInv' & Hg' & Hvs' & Hat'); [done| |..].
  { eapply insert_grown; [done| |done|done].
    unfold can_double, int_range, INCREMENT_FACTOR_ in *. lia. }
  { unfold vec_size, INCREMENT_FACTOR_, REALLOCATION_FACTOR_ in *. lia. }
  exists m'. split; [simpl; by rewrite Hi, bind_Returns_l|].
  split; [done|]. split; [done|]. split.
  { rewrite first_wins_cons. by rewrite Hvs', Hvs1. }
  intros key. rewrite Hat', first_value_cons, Hat1.
  assert (key ∈ keys m1 ↔ key ∈ keys m ∨ kv.1 = key) as Hk1.
  { unfold keys. rewrite Hvs1. fold (keys m). case_decide as Hin.
    - split; [by left|]. by intros [?|<-].
    - rewrite fmap_app, elem_of_app. simpl. rewrite list_elem_of_singleton.
      split; (intros [?|?]; [by left|by right]). }
  destruct (decide (key ∈ keys m)) as [Hk|Hk].
  - rewrite decide_True by tauto. rewrite decide_False; [done|].
    by intros [-> ?].
  - destruct (decide (kv.1 = key)) as [<-|Hne].
    + rewrite decide_True by tauto. by rewrite decide_True.
    + by rewrite decide_False by tauto.
Qed.

Lemma first_wins_keys (vs elems : list (K * V)) (x : K) :
  x ∈ (first_wins vs elems).*1 ↔ x ∈ vs.*1 ∨ x ∈ elems.*1.
Proof.
  revert vs. induction elems as [|kv elems IH]; intros vs.
  { simpl. rewrite elem_of_nil. tauto. }
  rewrite first_wins_cons, IH. simpl. rewrite elem_of_cons.
  case_decide as Hin.
  - split; [tauto|]. intros [?|[->|?]]; tauto.
  - rewrite fmap_app, elem_of_app. simpl. rewrite list_elem_of_singleton. tauto.
Qed.

Lemma first_wins_NoDup (vs elems : list (K * V)) :
  NoDup (vs ++ elems).*1 → first_wins vs elems = vs ++ elems.
Proof.
  revert vs. induction elems as [|kv elems IH]; intros vs Hnd.
  { by rewrite app_nil_r. }
  rewrite first_wins_cons.
  pose proof Hnd as Hnd'.
  rewrite fmap_app in Hnd. apply NoDup_app in Hnd as (Hv & Hd & He).
  rewrite decide_False.
  - rewrite IH; [by rewrite <-app_assoc|]. by rewrite <-app_assoc.
  - intros Hin. apply (Hd _ Hin). simpl. apply elem_of_cons. by left.
Qed.

(** X8 — The constructors from a sequence of pairs, within the range of
    [int]: of the pairs that share a key the first one is kept, so that
    [at] gives the value of the first pair with the key and throws when
    no pair has it; the keys stored are those of the sequence, each once;
    and a sequence without a repeated key is stored as it is, in its
    order. *)
Theorem HashMap_of_first_wins (elems : list (K * V)) :
  REALLOCATION_FACTOR_ * vec_size elems * INCREMENT_FACTOR_ ≤ int_range →
  ∃ m, HashMap_of elems = Returns m ∧ Inv m ∧
       (∀ key, at_ m key =
                 match list_find (λ kv, kv.1 = key) elems with
                 | Some (_, kv) => Returns kv.2
                 | None => Throws_out_of_range
                 end) ∧
       keys m ≡ₚ remove_dups elems.*1 ∧
       (NoDup elems.*1 → value_store_ m = elems).
Proof.
  intros Hb.
  destruct (insert_all_store elems HashMap_new)
    as (m & Hm & HInv & _ & Hvs & Hat); [apply Inv_new|apply grown_new|done|].
  exists m. split; [done|]. split; [done|]. split; [|split].
  - intros key. rewrite Hat. by rewrite decide_False by apply not_elem_of_nil.
  - apply NoDup_Permutation; [apply HInv|apply NoDup_remove_dups|].
    intros x. unfold keys. rewrite Hvs, first_wins_keys, elem_of_remove_dups.
    simpl. rewrite elem_of_nil. tauto.
  - intros Hnd. rewrite Hvs. by apply first_wins_NoDup.
Qed.

(** X9 — The number of buckets of a table just constructed from a
    sequence of pairs, within the range of [int]: one bucket for an
    empty table, and otherwise the power of two that lies above one and
    a half times the number of pairs stored and not above three times
    that number, which is [2 ^ log2 (3 * size)]. *)
Theorem HashMap_of_bucket_count (elems : list (K * V)) m :
  REALLOCATION_FACTOR_ * vec_size elems * INCREMENT_FACTOR_ ≤ int_range →
  HashMap_of elems = Returns m →
  bucket_count m = if decide (size m = 0) then 1
                   else 2 ^ Z.log2 (REALLOCATION_FACTOR_ * size m).
Proof.
  intros Hb Hm.
  destruct (insert_all_store elems HashMap_new)
    as (m' & Hm' & HInv & Hg & _); [apply Inv_new|apply grown_new|done|].
  unfold HashMap_of in Hm. rewrite Hm in Hm'. injection Hm' as <-.
  destruct HInv as (_ & Hl & _). destruct Hg as (j & Hj & Hn & Hg).
  unfold load_ok, INCREMENT_FACTOR_, REALLOCATION_FACTOR_ in *.
  assert (0 ≤ size m) by (unfold size, vec_size; lia).
  rewrite Hn in *. case_decide as Hz.
  - destruct Hg as [->|Hg]; [done|].
    pose proof (Z.pow_pos_nonneg 2 j). lia.
  - destruct Hg as [->|Hg]; [simpl in Hl; lia|].
    f_equal. symmetry. apply Z.log2_unique; [done|].
    rewrite Z.pow_succ_r by done. lia.
Qed.

(** ** Iterators *)

Lemma iter_pre_increment (n : nat) (it : iterator) :
  0 ≤ index_ it → index_ it + Z.of_nat n < 2 ^ 64 →
  Nat.iter n pre_increment it
  = {| index_ := index_ it + Z.of_nat n; my_hashmap_ := my_hashmap_ it |}.
Proof.
  induction n as [|n IH]; intros Hi Hn.
  - destruct it as [i a]. simpl. f_equal. lia.
  - simpl. rewrite IH by lia. unfold pre_increment. simpl. f_equal.
    rewrite to_size_t_id; lia.
Qed.

Lemma vec_at_lookup {A} (v : list A) (n : nat) :
  vec_at v (Z.of_nat n)
  = match v !! n with Some a => Returns a | None => Undefined end.
Proof. unfold vec_at. rewrite decide_True by lia. by rewrite Nat2Z.id. Qed.

(** X10 — Iteration.  The iterator obtained from [begin()] by [n]
    increments, for [n] up to [size()], is at position [n]; it equals
    [end()] exactly when [n] is [size()], and before that [operator*]
    gives the pair at position [n] of the store.  Dereferencing [end()]
    reads outside the store, and [begin()] equals [end()] exactly in an
    empty container. *)
Theorem iterator_traversal (mem : @memory K V) this m (n : nat) :
  mem this = Some m → size m < 2 ^ 64 → Z.of_nat n ≤ size m →
  index_ (Nat.iter n pre_increment (begin_iterator this m)) = Z.of_nat n ∧
  iterator_eq (Nat.iter n pre_increment (begin_iterator this m))
              (end_iterator this m)
    = bool_decide (Z.of_nat n = size m) ∧
  dereference mem (Nat.iter n pre_increment (begin_iterator this m))
    = match value_store_ m !! n with
      | Some kv => Returns kv
      | None => Undefined
      end ∧
  (Z.of_nat n < size m →
   ∃ kv, dereference mem (Nat.iter n pre_increment (begin_iterator this m))
         = Returns kv) ∧
  dereference mem (end_iterator this m) = Undefined ∧
  iterator_eq (begin_iterator this m) (end_iterator this m) = empty m.
Proof.
  intros Hmem Hs Hn.
  rewrite iter_pre_increment by (simpl; unfold begin_; lia).
  unfold begin_iterator, end_iterator, begin_, end_, iterator_eq, dereference.
  simpl. rewrite Hmem, Z.add_0_l, vec_at_lookup.
  split; [done|]. split.
  { rewrite (bool_decide_true (Some this = Some this)) by done.
    by rewrite andb_true_r. }
  split; [done|]. split.
  { intros Hlt. destruct (lookup_lt_is_Some_2 (value_store_ m) n) as [kv ->];
      [unfold size, vec_size in Hlt; lia|]. by exists kv. }
  split.
  { unfold size, vec_size. rewrite vec_at_lookup.
    by rewrite lookup_ge_None_2 by lia. }
  rewrite (bool_decide_true (Some this = Some this)) by done.
  rewrite andb_true_r. unfold empty. apply bool_decide_ext. split; by intros.
Qed.

(** X11 — [find] as an iterator: in a well-formed container the
    iterator that [find] returns equals [end()] exactly when the key is
    not stored, and otherwise [operator*] on it gives the pair of the
    key, with the value that [at] returns. *)
Theorem find_iterator_spec (mem : @memory K V) this m key :
  mem this = Some m → index_ok m →
  ∃ it, find_iterator hasher_ this m key = Returns it ∧
        iterator_eq it (end_iterator this m) = bool_decide (key ∉ keys m) ∧
        (key ∈ keys m →
         ∃ v, dereference mem it = Returns (key, v) ∧
              at_ m key = Returns v).
Proof.
  intros Hmem Hok. unfold find_iterator, iterator_eq, end_iterator, dereference.
  destruct (find_cases hasher_ m key Hok)
    as [[Hni ->]|(p & [k v] & Hp & Hk & -> & Hne)]; simpl.
  - eexists. split; [done|]. simpl. split; [|done].
    rewrite !bool_decide_true; done.
  - simpl in Hk. subst k. eexists. split; [done|]. simpl. split.
    + rewrite (bool_decide_false (Z.of_nat p = end_ m)) by exact Hne.
      rewrite (bool_decide_false (key ∉ keys m)); [done|].
      intros Hni. by apply (key_absent m key p (key, v) Hni Hp).
    + intros _. exists v. rewrite Hmem. split; [by apply vec_at_nat|].
      by apply (at_present hasher_ m p (key, v)).
Qed.

Lemma insert_range_drop (mem : @memory K V) this src (fuel i : nat) m0 :
  mem this = Some src → size src < 2 ^ 64 →
  (i ≤ length (value_store_ src))%nat →
  (length (value_store_ src) - i < fuel)%nat →
  insert_range fuel mem
    {| index_ := Z.of_nat i; my_hashmap_ := Some this |}
    (end_iterator this src) m0
  = Some (insert_all m0 (drop i (value_store_ src))).
Proof.
  intros Hmem Hs. revert i m0.
  induction fuel as [|fuel IH]; intros i m0 Hi Hf; [lia|].
  simpl. unfold iterator_ne, iterator_eq, end_iterator, end_. simpl.
  rewrite (bool_decide_true (Some this = Some this)) by done.
  rewrite andb_true_r.
  destruct (decide (i = length (value_store_ src))) as [->|Hne].
  - rewrite bool_decide_true by done. simpl. by rewrite drop_all.
  - rewrite bool_decide_false by (unfold size, vec_size; lia). simpl.
    destruct (lookup_lt_is_Some_2 (value_store_ src) i) as [kv Hkv]; [lia|].
    unfold dereference. simpl. rewrite Hmem, (vec_at_nat _ _ _ Hkv).
    rewrite bind_Returns_l, (drop_S _ _ _ Hkv). simpl.
    destruct (insert m0 kv) as [m1| |]; simpl; [|done|done].
    unfold pre_increment. simpl.
    rewrite to_size_t_id by (unfold size, vec_size in Hs; lia).
    replace (Z.of_nat i + 1) with (Z.of_nat (S i)) by lia.
    apply IH; lia.
Qed.

(** X12 — Copy through the range constructor.  Constructing a table
    from [begin()] and [end()] of a well-formed container, within the
    range of [int], ends after [size()] turns of the loop and gives a
    well-formed table with the same pairs at the same positions, on
    which [find] and [at] answer as on the source. *)
Theorem HashMap_range_copy (mem : @memory K V) this src (fuel : nat) :
  mem this = Some src → index_ok src →
  REALLOCATION_FACTOR_ * size src * INCREMENT_FACTOR_ ≤ int_range →
  (length (value_store_ src) < fuel)%nat →
  ∃ m, HashMap_range fuel mem (begin_iterator this src)
         (end_iterator this src) = Some (Returns m) ∧
       value_store_ m = value_store_ src ∧ Inv m ∧
       ∀ key, find m key = find src key ∧ at_ m key = at_ src key.
Proof.
  intros Hmem Hok Hb Hf.
  destruct (insert_all_store (value_store_ src) HashMap_new)
    as (m & Hm & HInv & _ & Hvs & _); [apply Inv_new|apply grown_new|done|].
  rewrite first_wins_NoDup in Hvs by apply Hok.
  exists m. split; [|split; [done|split; [done|]]].
  - unfold HashMap_range, begin_iterator, begin_.
    change 0 with (Z.of_nat 0).
    rewrite (insert_range_drop mem this src fuel 0); [by rewrite drop_0, Hm|done| |lia|lia].
    unfold int_range, INCREMENT_FACTOR_, REALLOCATION_FACTOR_ in Hb. lia.
  - intros key. split; [apply find_store|apply at_store]; done || apply HInv.
Qed.

(** X13 — [operator--] of [hashtbl.h] undoes [operator++] and is undone
    by it, on every iterator, also where the position wraps around;
    [--end()] designates the last pair of the store, and reads outside
    the store if the container is empty; [--begin()] is at the largest
    position there is. *)
Theorem decrement_increment (mem : @memory K V) this m (it : iterator) :
  mem this = Some m → size m < 2 ^ 64 → 0 ≤ index_ it < 2 ^ 64 →
  pre_decrement (pre_increment it) = it ∧
  pre_increment (pre_decrement it) = it ∧
  dereference mem (pre_decrement (end_iterator this m))
    = back (value_store_ m) ∧
  index_ (pre_decrement (begin_iterator this m)) = 2 ^ 64 - 1.
Proof.
  intros Hmem Hs Hi. destruct it as [i a]. simpl in Hi.
  unfold pre_decrement, pre_increment, to_size_t. simpl.
  rewrite Zminus_mod_idemp_l, Zplus_mod_idemp_l.
  replace (i + 1 - 1) with i by lia. replace (i - 1 + 1) with i by lia.
  rewrite Z.mod_small by lia.
  split; [done|]. split; [done|]. split; [|done].
  unfold dereference, end_iterator, end_, back. simpl. rewrite Hmem.
  rewrite last_lookup. unfold size, vec_size in *. revert Hs.
  destruct (value_store_ m) as [|kv vs]; intros Hs.
  - done.
  - rewrite Z.mod_small by (simpl length in *; lia).
    replace (Z.of_nat (length (kv :: vs)) - 1)
      with (Z.of_nat (pred (length (kv :: vs)))) by (simpl length; lia).
    apply vec_at_lookup.
Qed.

(** ** Stores through [operator[]] *)

Lemma indexed_by_keys (f : K → Z) (vs vs' : list (K * V)) hp :
  vs'.*1 = vs.*1 → indexed_by f vs hp → indexed_by f vs' hp.
Proof.
  intros Hk Hix b bucket Hb. destruct (Hix _ _ Hb) as [Hnd Hmem].
  split; [done|]. intros x. rewrite Hmem.
  assert (∀ (l l' : list (K * V)), l'.*1 = l.*1 → ∀ p kv,
            l !! p = Some kv → ∃ kv', l' !! p = Some kv' ∧ kv'.1 = kv.1)
    as Hmove.
  { intros l l' Hll p kv Hp.
    assert (l'.*1 !! p = Some kv.1) as Hp'
      by (rewrite Hll, list_lookup_fmap, Hp; done).
    apply list_lookup_fmap_Some in Hp' as (kv' & ? & ?). by exists kv'. }
  split; intros (p & kv & -> & Hp & Hf).
  - destruct (Hmove vs vs' Hk p kv Hp) as (kv' & ? & Hkk).
    exists p, kv'. rewrite Hkk. done.
  - destruct (Hmove vs' vs (eq_sym Hk) p kv Hp) as (kv' & ? & Hkk).
    exists p, kv'. rewrite Hkk. done.
Qed.

Lemma assign_second_spec m p kv (v : V) :
  Inv m → value_store_ m !! p = Some kv →
  ∃ m', assign_second m (Z.of_nat p) v = Returns m' ∧ Inv m' ∧
        size m' = size m ∧
        ∀ key, at_ m' key = if decide (key = kv.1) then Returns v
                            else at_ m key.
Proof.
  intros (Hok & Hl & Hr) Hp. pose proof Hok as (Hn & Hnd & Hsz & Hix).
  unfold assign_second.
  rewrite (vec_update_Returns _ _ kv) by (lia || by rewrite Nat2Z.id).
  rewrite bind_Returns_l, Nat2Z.id.
  set (m' := {| value_store_ := _; hashed_pointers_ := _ |}).
  assert (keys m' = keys m) as Hkeys.
  { unfold keys, m'. simpl. rewrite list_fmap_insert. simpl.
    apply list_insert_id. by rewrite list_lookup_fmap, Hp. }
  assert (size m' = size m) as Hs.
  { unfold size, vec_size, m'. simpl. by rewrite length_insert. }
  assert (index_ok m') as Hok'.
  { split; [done|]. split; [by rewrite Hkeys|]. split; [done|].
    eapply indexed_by_keys; [|exact Hix]. exact Hkeys. }
  pose proof (lookup_lt_Some _ _ _ Hp) as Hlt.
  exists m'. split; [done|]. split.
  { split; [done|]. split; [|done]. unfold load_ok. by rewrite Hs. }
  split; [done|]. intros key. case_decide as Hk.
  - subst key. apply (at_present hasher_ m' p (kv.1, v)); [done|].
    unfold m'. simpl. rewrite list_lookup_insert. by rewrite decide_True.
  - destruct (at_cases m key Hok) as [[Hni ->]|(q & kv' & Hq & <- & ->)].
    + apply at_absent; [done|]. by rewrite Hkeys.
    + apply (at_present hasher_ m' q kv'); [done|].
      unfold m'. simpl. rewrite list_lookup_insert_ne; [done|].
      intros ->. by simplify_eq.
Qed.

(** X14 — Assignment through [operator[]], within the range of [int]:
    after [m[key] = v], [at] gives [v] for [key] and what it gave before
    for every other key; the size is one larger if the key was not
    stored and the same if it was. *)
Theorem subscript_assign_lookup m key (v : V) :
  Inv m → can_double m →
  ∃ m', subscript_assign m key v = Returns m' ∧ Inv m' ∧
        (∀ key', at_ m' key' = if decide (key' = key) then Returns v
                               else at_ m key') ∧
        size m' = if decide (key ∈ keys m) then size m else size m + 1.
Proof.
  intros HInv Hd. pose proof HInv as (Hok & _).
  unfold subscript_assign.
  destruct (decide (key ∈ keys m)) as [Hin|Hni].
  - destruct (key_present m key Hin) as (p & kv & Hp & <-).
    rewrite (subscript_present hasher_ m p kv Hok Hp), bind_Returns_l. simpl.
    destruct (assign_second_spec m p kv v HInv Hp) as (m' & Hm' & HInv' & Hs & Hat).
    by exists m'.
  - destruct (subscript_absent hasher_ m key HInv Hd Hni)
      as (m1 & Hi & -> & Hvs & HInv1).
    rewrite bind_Returns_l. simpl.
    assert (value_store_ m1 !! length (value_store_ m) = Some (key, inhabitant))
      as Hp by (by rewrite Hvs, lookup_app_r, Nat.sub_diag by lia).
    destruct (assign_second_spec m1 _ _ v HInv1 Hp)
      as (m' & Hm' & HInv' & Hs & Hat).
    exists m'. split; [exact Hm'|]. split; [done|]. split.
    + intros key'. rewrite Hat. simpl. case_decide as Hk; [done|].
      destruct (insert_at m (key, inhabitant) HInv Hd)
        as (m1' & Hi' & _ & _ & Hat1).
      rewrite Hi in Hi'. injection Hi' as <-. rewrite Hat1.
      rewrite decide_False; [done|]. by intros [? _].
    + rewrite Hs. unfold size, vec_size. rewrite Hvs, length_app. simpl. lia.
Qed.

(** ** The rehash to [2^32] buckets *)

Lemma rehash_loop_out_of_range (n i : Z) (rest : list (K * V)) hp :
  n ≠ 0 →
  Exists (λ kv, vec_size hp ≤ rehash_bucket n kv.1) rest →
  rehash_loop n i rest hp = Undefined.
Proof.
  intros Hn. revert i hp.
  induction rest as [|kv rest IH]; intros i hp Hex; [by inversion Hex|].
  simpl. rewrite umod_Returns by done. rewrite bind_Returns_l.
  fold (bucket_for n kv.1). fold (rehash_bucket n kv.1).
  pose proof (rehash_bucket_nonneg hasher_ n kv.1) as Hnn.
  destruct (decide (vec_size hp ≤ rehash_bucket n kv.1)) as [Hout|Hin].
  - unfold vec_update, vec_at. rewrite decide_True by done.
    rewrite lookup_ge_None_2; [done|]. unfold vec_size in Hout. lia.
  - apply Exists_cons in Hex as [Hex|Hex]; [done|].
    destruct (lookup_lt_is_Some_2 hp (Z.to_nat (rehash_bucket n kv.1)))
      as [bucket Hb]; [unfold vec_size in Hin; lia|].
    rewrite (vec_update_Returns _ _ bucket) by done.
    rewrite bind_Returns_l. apply IH.
    unfold vec_size in *. by rewrite length_insert.
Qed.

Lemma check_and_reallocate_out_of_range m :
  1 ≤ bucket_count m → bucket_count m * INCREMENT_FACTOR_ < 2 ^ 64 →
  REALLOCATION_FACTOR_ * size m < 2 ^ 64 →
  bucket_count m * INCREMENT_FACTOR_ ≤ REALLOCATION_FACTOR_ * size m →
  Exists (λ kv, bucket_count m * INCREMENT_FACTOR_
                ≤ rehash_bucket (bucket_count m * INCREMENT_FACTOR_) kv.1)
         (value_store_ m) →
  check_and_reallocate m = Undefined.
Proof.
  unfold INCREMENT_FACTOR_, REALLOCATION_FACTOR_.
  intros Hn Hr Hs Htrig Hex. unfold check_and_reallocate.
  assert (0 ≤ size m) by (unfold size, vec_size; lia).
  unfold INCREMENT_FACTOR_, REALLOCATION_FACTOR_.
  rewrite (to_size_t_id (bucket_count m * 2)) by lia.
  rewrite (to_size_t_id (3 * size m)) by lia.
  rewrite decide_True by done.
  rewrite rehash_loop_out_of_range; [done|lia|].
  unfold vec_size at 1. rewrite length_replicate.
  eapply Exists_impl; [exact Hex|]. intros kv Hkv. simpl in *. lia.
Qed.

(** X15 — The rehash that writes outside the table.  When an insert
    doubles the bucket count and the bucket number of a stored key, taken
    through [int cur_position], comes out negative, the rehash loop
    writes to [hashed_pointers_] at an index beyond its size: the insert
    has no defined behaviour.  This takes a doubled bucket count above
    [2^31]. *)
Theorem insert_rehash_out_of_range m kv :
  index_ok m → kv.1 ∉ keys m →
  bucket_count m * INCREMENT_FACTOR_ < 2 ^ 64 →
  REALLOCATION_FACTOR_ * (size m + 1) < 2 ^ 64 →
  bucket_count m * INCREMENT_FACTOR_ ≤ REALLOCATION_FACTOR_ * (size m + 1) →
  Exists (λ kv', bucket_count m * INCREMENT_FACTOR_
                 ≤ rehash_bucket (bucket_count m * INCREMENT_FACTOR_) kv'.1)
         (value_store_ m ++ [kv]) →
  insert m kv = Undefined.
Proof.
  intros Hok Hni Hr Hs Htrig Hex. pose proof Hok as (Hn & Hnd & Hix).
  assert (0 ≤ size m) by (unfold size, vec_size; lia).
  unfold insert. rewrite (find_absent hasher_ m kv.1 Hok Hni). simpl.
  rewrite decide_True by done.
  rewrite umod_Returns by lia. simpl.
  fold (bucket_for (bucket_count m) kv.1).
  destruct (bucket_for_lookup hasher_ _ _ _ kv.1 Hn Hix) as [bucket Hb].
  pose proof (bucket_for_range hasher_ (bucket_count m) kv.1 Hn) as Hbr.
  rewrite (vec_update_Returns _ _ bucket) by (done || lia). simpl.
  set (m1 := {| value_store_ := _; hashed_pointers_ := _ |}).
  assert (bucket_count m1 = bucket_count m) as Hn1.
  { unfold bucket_count, vec_size. simpl. by rewrite length_insert. }
  assert (size m1 = size m + 1) as Hs1.
  { unfold size, vec_size, m1. simpl. unfold push_back.
    rewrite length_app. simpl. lia. }
  apply check_and_reallocate_out_of_range; rewrite ?Hn1, ?Hs1; done.
Qed.

(** ** An empty container *)

(** X16 — After [clear()], whatever the container held and whether or
    not it was well formed, the container is the one that the default
    constructor builds: [find] returns [end()], which is [begin()], [at]
    throws and [erase] changes nothing, for every key. *)
Theorem clear_forgets m key :
  clear m = HashMap_new ∧
  size (clear m) = 0 ∧ empty (clear m) = true ∧
  bucket_count (clear m) = 1 ∧
  find (clear m) key = Returns (end_ (clear m)) ∧
  end_ (clear m) = begin_ (clear m) ∧
  at_ (clear m) key = Throws_out_of_range ∧
  erase (clear m) key = Returns (clear m).
Proof.
  pose proof (Inv_clear hasher_ m) as (Hok & _).
  assert (key ∉ keys (clear m)) as Hni by apply not_elem_of_nil.
  split; [done|]. split; [done|]. split; [done|]. split; [done|].
  split; [by apply find_absent|]. split; [done|].
  split; [by apply at_absent|by apply erase_absent].
Qed.

(** ** The buckets as a whole *)



(** ** [erase], then [insert] *)

(** X18 — [erase] of a key followed by [insert] of a pair with that
    key, within the range of [int]: the pair is stored last, whether or
    not the key was stored before; [at] gives its value for the key, and
    for any other key what it gave at the start. *)
Theorem erase_then_insert m kv :
  Inv m → can_double m →
  ∃ m' m'', erase m kv.1 = Returns m' ∧ insert m' kv = Returns m'' ∧
            Inv m'' ∧ last (value_store_ m'') = Some kv ∧
            (∀ key, at_ m'' key = if decide (key = kv.1) then Returns kv.2
                                  else at_ m key) ∧
            size m'' = if decide (kv.1 ∈ keys m) then size m
                       else size m + 1.
Proof.
  intros HInv Hd. pose proof HInv as (Hok & _).
  pose proof (Inv_size_bound hasher_ m HInv) as Hsz.
  destruct (erase_Inv hasher_ m kv.1 HInv) as (m' & He & HInv' & Hn' & _).
  destruct (erase_at m kv.1 Hok) as (m1 & He1 & _ & Hat');
    [unfold int_range in Hsz; lia|].
  rewrite He in He1. injection He1 as <-.
  assert (kv.1 ∉ keys m') as Hni'.
  { pose proof (Hat' kv.1) as Hthrow. rewrite decide_True in Hthrow by done.
    destruct (at_cases m' kv.1 (proj1 HInv')) as [[? _]|(? & ? & _ & _ & Hr)];
      [done|congruence]. }
  assert (can_double m') as Hd' by (unfold can_double; by rewrite Hn').
  destruct (insert_at m' kv HInv' Hd') as (m'' & Hi & HInv'' & Hvs'' & Hat'').
  rewrite decide_False in Hvs'' by done.
  exists m', m''. split; [done|]. split; [done|]. split; [done|].
  split; [rewrite Hvs''; apply last_snoc|]. split.
  - intros key. rewrite Hat'', Hat'.
    destruct (decide (key = kv.1)) as [->|Hne].
    + by rewrite decide_True.
    + rewrite decide_False; [done|]. by intros [? _].
  - unfold size at 1. rewrite Hvs''. unfold vec_size. rewrite length_app.
    simpl. destruct (decide (kv.1 ∈ keys m)) as [Hin|Hni].
    + destruct (key_present m kv.1 Hin) as (p0 & kv0 & Hp0 & Hk0).
      destruct (erase_present hasher_ m kv.1 p0 kv0 Hok) as
        (m1 & last_kv & _ & He1 & Hvs1 & _); [unfold int_range in Hsz; lia|done|done|].
      rewrite He in He1. injection He1 as <-.
      pose proof (erase_size m m' p0 kv0 last_kv Hp0 Hvs1) as Hs'.
      unfold size, vec_size in *. lia.
    + rewrite (erase_absent hasher_ m kv.1 Hok Hni) in He.
      injection He as <-. unfold size, vec_size. lia.
Qed.

End Laws.

(** ** Scenarios for the further properties *)

Lemma insert_lookup_witness :
  ∃ m', insert hash_int abc_map (4, "d") = Returns m' ∧
        value_store_ m' = abc ++ [(4, "d")] ∧
        at_ hash_int m' 4 = Returns "d" ∧
        at_ hash_int m' 2 = Returns "b" ∧
        find hash_int m' 3 = Returns 2.
Proof.
  destruct (insert_lookup hash_int abc_map (4, "d"))
    as (m' & Hi & _ & Hvs & Hat & Hpos); [apply abc_map_Inv|by vm_compute|].
  exists m'. split; [exact Hi|]. split; [exact Hvs|].
  split; [by rewrite Hat|]. split; [by rewrite Hat|].
  exact (proj1 (Hpos 2%nat (3, "c") eq_refl)).
Defined.

Lemma erase_lookup_witness :
  ∃ m', erase hash_int abc_map 2 = Returns m' ∧
        at_ hash_int m' 2 = Throws_out_of_range ∧
        at_ hash_int m' 3 = Returns "c" ∧
        erase hash_int m' 2 = Returns m'.
Proof.
  destruct (erase_lookup hash_int abc_map 2)
    as (m' & He & _ & Hat & He'); [apply abc_map_Inv|by vm_compute|].
  exists m'. split; [exact He|]. split; [by rewrite Hat|].
  split; [by rewrite Hat|exact He'].
Defined.

Lemma insert_then_erase_witness :
  ∃ m' m'', insert hash_int abc_map (4, "d") = Returns m' ∧
            erase hash_int m' 4 = Returns m'' ∧
            value_store_ m'' = abc.
Proof.
  destruct (insert_then_erase hash_int abc_map (4, "d"))
    as (m' & m'' & Hi & He & Hvs & _); [apply abc_map_Inv|by vm_compute| |].
  { unfold keys. simpl.
    intros Hin. repeat (apply elem_of_cons in Hin as [?|Hin]; [done|]).
    by apply elem_of_nil in Hin. }
  exists m', m''. split; [exact Hi|]. split; [exact He|exact Hvs].
Defined.

Lemma HashMap_of_first_wins_witness :
  ∃ m, HashMap_of hash_int [(1, "a"); (2, "b"); (1, "c")] = Returns m ∧
       at_ hash_int m 1 = Returns "a" ∧
       at_ hash_int m 3 = Throws_out_of_range.
Proof.
  destruct (HashMap_of_first_wins hash_int [(1, "a"); (2, "b"); (1, "c")])
    as (m & Hm & _ & Hat & _); [by vm_compute|].
  exists m. split; [exact Hm|]. split; by rewrite Hat.
Defined.

Lemma HashMap_of_bucket_count_witness : bucket_count abc_map = 2 ^ 3.
Proof.
  rewrite (HashMap_of_bucket_count hash_int abc abc_map);
    [reflexivity|by vm_compute|apply abc_map_built].
Defined.

Lemma iterator_traversal_witness :
  dereference abc_memory (Nat.iter 1%nat pre_increment (begin_iterator 0%nat abc_map))
    = Returns (2, "b") ∧
  dereference abc_memory (end_iterator 0%nat abc_map) = Undefined.
Proof.
  destruct (iterator_traversal abc_memory 0%nat abc_map 1%nat)
    as (_ & _ & Hd & _ & He & _); [reflexivity|by vm_compute|by vm_compute|].
  split; [exact Hd|exact He].
Defined.

Lemma find_iterator_spec_witness :
  ∃ it, find_iterator hash_int 0%nat abc_map 9 = Returns it ∧
        iterator_eq it (end_iterator 0%nat abc_map) = true.
Proof.
  destruct (find_iterator_spec hash_int abc_memory 0%nat abc_map 9)
    as (it & Hf & Heq & _); [reflexivity|apply abc_map_Inv|].
  exists it. split; [exact Hf|]. rewrite Heq. reflexivity.
Defined.

Lemma HashMap_range_copy_witness :
  ∃ m, HashMap_range hash_int 4%nat abc_memory (begin_iterator 0%nat abc_map)
         (end_iterator 0%nat abc_map) = Some (Returns m) ∧
       value_store_ m = abc.
Proof.
  destruct (HashMap_range_copy hash_int abc_memory 0%nat abc_map 4%nat)
    as (m & Hm & Hvs & _);
    [reflexivity|apply abc_map_Inv|by vm_compute|simpl; lia|].
  exists m. split; [exact Hm|exact Hvs].
Defined.

Lemma decrement_increment_witness :
  dereference abc_memory (pre_decrement (end_iterator 0%nat abc_map))
    = Returns (3, "c") ∧
  pre_increment (pre_decrement (begin_iterator 0%nat abc_map))
    = begin_iterator 0%nat abc_map.
Proof.
  destruct (decrement_increment abc_memory 0%nat abc_map
              (begin_iterator 0%nat abc_map))
    as (_ & Hid & Hd & _); [reflexivity|by vm_compute|by vm_compute|].
  split; [exact Hd|exact Hid].
Defined.

Lemma subscript_assign_lookup_witness :
  ∃ m', subscript_assign hash_int abc_map 2 "z" = Returns m' ∧
        at_ hash_int m' 2 = Returns "z" ∧
        at_ hash_int m' 3 = Returns "c" ∧
        size m' = 3.
Proof.
  destruct (subscript_assign_lookup hash_int abc_map 2 "z")
    as (m' & Hm' & _ & Hat & Hs); [apply abc_map_Inv|by vm_compute|].
  exists m'. split; [exact Hm'|]. split; [by rewrite Hat|].
  split; [by rewrite Hat|by rewrite Hs].
Defined.

(** The table built by the first [narrow_count] inserts has [2^31]
    buckets. *)
Lemma narrow_table :
  ∃ m : HashMap Z string,
    HashMap_of hash_int (wide_elems narrow_count) = Returns m ∧
    value_store_ m = wide_elems narrow_count ∧
    index_ok hash_int m ∧ bucket_count m = 2 ^ 31.
Proof.
  destruct (wide_reachable (Z.to_nat narrow_count))
    as (m & j & Hm & Hvs & Hok & Hl & Hn & Hj & Hg);
    [unfold narrow_count, wide_count; lia|].
  rewrite Z2Nat.id in Hm, Hvs, Hg by (unfold narrow_count; lia).
  exists m. split; [exact Hm|]. split; [exact Hvs|]. split; [exact Hok|].
  assert (size m = narrow_count) as Hs.
  { unfold size. rewrite Hvs. apply wide_elems_length. unfold narrow_count. lia. }
  unfold load_ok, INCREMENT_FACTOR_, REALLOCATION_FACTOR_ in Hl.
  rewrite Hs, Hn in Hl. unfold narrow_count in Hl, Hg.
  assert (j = 31) as ->; [|exact Hn].
  destruct (decide (j ≤ 30)) as [Hle|Hgt].
  - pose proof (Z.pow_le_mono_r 2 j 30). lia.
  - destruct (decide (32 ≤ j)) as [Hge|]; [|lia].
    pose proof (Z.pow_le_mono_r 2 32 j). lia.
Qed.

(** Inserting the keys [0], ..., [narrow_count - 1] and then the key
    [2^31]: the last insert rehashes to [2^32] buckets, where the bucket
    number [2^31] of the new key becomes a negative [int]. *)
Lemma insert_rehash_out_of_range_witness :
  ∃ m : HashMap Z string,
    HashMap_of hash_int (wide_elems narrow_count) = Returns m ∧
    insert hash_int m (2 ^ 31, EmptyString) = Undefined.
Proof.
  destruct narrow_table as (m & Hm & Hvs & Hok & Hn).
  assert (size m = narrow_count) as Hs.
  { unfold size. rewrite Hvs. apply wide_elems_length. unfold narrow_count. lia. }
  exists m. split; [exact Hm|].
  apply (insert_rehash_out_of_range hash_int m (2 ^ 31, EmptyString));
    rewrite ?Hn, ?Hs; unfold INCREMENT_FACTOR_, REALLOCATION_FACTOR_, narrow_count;
    try lia.
  - exact Hok.
  - unfold keys. rewrite Hvs.
    intros (kv & Heq & (p & Hp & ->)%wide_elems_elem)%list_elem_of_fmap.
    simpl in Heq. unfold wide_key, narrow_count in *. case_decide; lia.
  - apply Exists_app. right. apply Exists_cons. left. by vm_compute.
Defined.


Lemma erase_then_insert_witness :
  ∃ m' m'', erase hash_int abc_map 2 = Returns m' ∧
            insert hash_int m' (2, "z") = Returns m'' ∧
            last (value_store_ m'') = Some (2, "z") ∧
            at_ hash_int m'' 2 = Returns "z" ∧
            at_ hash_int m'' 1 = Returns "a" ∧
            size m'' = 3.
Proof.
  destruct (erase_then_insert hash_int abc_map (2, "z"))
    as (m' & m'' & He & Hi & _ & Hlast & Hat & Hs);
    [apply abc_map_Inv|by vm_compute|].
  exists m', m''. split; [exact He|]. split; [exact Hi|].
  split; [exact Hlast|]. split; [by rewrite Hat|].
  split; [by rewrite Hat|by rewrite Hs].
Defined.
